(** * A model of the AWS Lambda runtime client for Deno ([src/runtime.ts])

    The development embeds the runtime loop of [runtime.ts]: the error
    payload shaping, the JSON transport helper, the poll step, the
    construction of the invocation context and the poll / dispatch / report
    cycle of [start].

    Conventions of the embedding:
    - a JavaScript string is a [string]; each character stands for one code
      unit in the range 0..255;
    - the numbers of the runtime's own arithmetic (epoch milliseconds) are
      [NaN] or an integer [Int z]; the numbers that travel through the
      runtime as data are any double: an integer, or a [double] with a
      fraction or without bound;
    - a conversion built into the language, [String(v)] or
      [JSON.stringify(v)], returns or throws: it is a [Result];
    - an [await]ed call is a computation over a world that records every
      effect in a trace, in the order in which the effects are issued. *)

From Stdlib Require Import ZArith List String Ascii Bool Lia.
From Stdlib Require Import DecimalN.
From stdpp Require Import gmap strings.
Import ListNotations.

Local Open Scope string_scope.
Local Open Scope Z_scope.

(** ** JavaScript values *)

Module Js.

(** A number of the runtime's arithmetic: [NaN], or the integer [z].  As a
    value that is printed or parsed, [Int z] stands for the double nearest
    to [z], which is [z] itself up to 2^53. *)
Inductive number : Type :=
| NaN
| Int (z : Z).

(** A double that is not an integer: an infinity, or [m * 2^e] with a
    fraction ([0 < m], [e < 0]), with its sign. *)
Inductive double : Type :=
| Infinity (negative : bool)
| Fraction (negative : bool) (m e : Z).

(** An [Error] instance, with the fields declared by the language's own
    typings: [name: string; message: string; stack?: string]. *)
Record ErrorObject : Type := mkError {
  name : string;
  message : string;
  stack : option string
}.

(** What a conversion built into the language does: it returns a value, or
    it throws one. *)
Inductive Result (T A : Type) : Type :=
| Returns (a : A)
| Throws (x : T).
Arguments Returns {T A} a.
Arguments Throws {T A} x.

(** The values.  [VArr] and [VObj] are the plain arrays and objects, as an
    array or object literal or [JSON.parse] builds them: [props] are the
    enumerable data properties of the object itself, in property order, and
    the prototype is [Object.prototype].  [VErr] is an instance of [Error].
    [VOther] is any other value: a BigInt, a function, an object with
    methods or with a prototype of its own, a cyclic structure; it is given
    by what the two conversions that the runtime applies make of it,
    [String(v)] and [JSON.stringify(v)] ([None] is the result
    [undefined]).  A [VOther] held by a plain object under the name
    [toString] is not callable: an object with a method of that name is a
    [VOther] itself. *)
Unset Elimination Schemes.
Inductive JsValue : Type :=
| VUndefined
| VNull
| VBool (b : bool)
| VNum (n : number)
| VDouble (d : double)
| VStr (s : string)
| VSymbol (description : option string)
| VArr (items : list JsValue)
| VObj (props : list (string * JsValue))
| VErr (e : ErrorObject)
| VOther (to_string : Result JsValue string)
         (to_json : Result JsValue (option string)).
Set Elimination Schemes.

(** The elements of a list converted in order; the first conversion that
    throws ends the traversal. *)
Definition collect {A B : Type} (f : A -> Result JsValue B)
  : list A -> Result JsValue (list B) :=
  fix go (l : list A) : Result JsValue (list B) :=
    match l with
    | [] => Returns []
    | x :: l' =>
        match f x with
        | Throws z => Throws z
        | Returns b =>
            match go l' with
            | Throws z => Throws z
            | Returns bs => Returns (b :: bs)
            end
        end
    end.

(** *** Characters *)

Definition chr (n : nat) : ascii := ascii_of_nat n.
Definition code (c : ascii) : nat := nat_of_ascii c.

Definition LF : ascii := chr 10.

(** The double quote. *)
Abbreviation DQUOTE := (Ascii false true false false false true false false).

(** White space and line terminators removed by [String.prototype.trim],
    among the code units 0..255: TAB, LF, VT, FF, CR, SP and NBSP. *)
Definition is_trim_space (c : ascii) : bool :=
  let n := code c in
  ((9 <=? n) && (n <=? 13))%nat || (n =? 32)%nat || (n =? 160)%nat.

Fixpoint drop_spaces (l : list ascii) : list ascii :=
  match l with
  | c :: l' => if is_trim_space c then drop_spaces l' else l
  | [] => []
  end.

Definition trim_chars (l : list ascii) : list ascii :=
  rev (drop_spaces (rev (drop_spaces l))).

(** [s.trim()] *)
Definition trim (s : string) : string :=
  string_of_list_ascii (trim_chars (list_ascii_of_string s)).

(** [s.split(sep)] for a one-character separator: the pieces between the
    separators, in order; a string without separator (the empty string
    too) gives one piece. *)
Fixpoint split_chars (sep : ascii) (l : list ascii) : list (list ascii) :=
  match l with
  | [] => [[]]
  | c :: l' =>
      if Ascii.eqb c sep then [] :: split_chars sep l'
      else match split_chars sep l' with
           | piece :: pieces => (c :: piece) :: pieces
           | [] => [[c]]
           end
  end.

Definition split (sep : ascii) (s : string) : list string :=
  map string_of_list_ascii (split_chars sep (list_ascii_of_string s)).

(** *** Decimal numerals *)

Fixpoint uint_chars (d : Decimal.uint) : list ascii :=
  match d with
  | Decimal.Nil => []
  | Decimal.D0 d => "0"%char :: uint_chars d
  | Decimal.D1 d => "1"%char :: uint_chars d
  | Decimal.D2 d => "2"%char :: uint_chars d
  | Decimal.D3 d => "3"%char :: uint_chars d
  | Decimal.D4 d => "4"%char :: uint_chars d
  | Decimal.D5 d => "5"%char :: uint_chars d
  | Decimal.D6 d => "6"%char :: uint_chars d
  | Decimal.D7 d => "7"%char :: uint_chars d
  | Decimal.D8 d => "8"%char :: uint_chars d
  | Decimal.D9 d => "9"%char :: uint_chars d
  end.

Definition is_digit (c : ascii) : bool :=
  ((48 <=? code c) && (code c <=? 57))%nat.

(** The digit [c] put in front of the numeral [d]. *)
Definition push_digit (c : ascii) (d : Decimal.uint) : Decimal.uint :=
  match (code c - 48)%nat with
  | 0%nat => Decimal.D0 d
  | 1%nat => Decimal.D1 d
  | 2%nat => Decimal.D2 d
  | 3%nat => Decimal.D3 d
  | 4%nat => Decimal.D4 d
  | 5%nat => Decimal.D5 d
  | 6%nat => Decimal.D6 d
  | 7%nat => Decimal.D7 d
  | 8%nat => Decimal.D8 d
  | _ => Decimal.D9 d
  end.

(** The longest prefix of digits, as a numeral, and what follows it. *)
Fixpoint take_digits (l : list ascii) : Decimal.uint * list ascii :=
  match l with
  | c :: l' =>
      if is_digit c
      then let '(d, rest) := take_digits l' in (push_digit c d, rest)
      else (Decimal.Nil, l)
  | [] => (Decimal.Nil, [])
  end.

Definition starts_with_digit (l : list ascii) : bool :=
  match l with
  | c :: _ => is_digit c
  | [] => false
  end.

(** The decimal digits of an integer, with a minus sign when negative: the
    rendering of an integer up to 2^53 by [String(n)], [`${n}`] and
    [JSON.stringify(n)]. *)
Definition Z_chars (z : Z) : list ascii :=
  match z with
  | Z0 => ["0"%char]
  | Zpos p => uint_chars (Pos.to_uint p)
  | Zneg p => "-"%char :: uint_chars (Pos.to_uint p)
  end.

Definition number_chars (n : number) : list ascii :=
  match n with
  | NaN => list_ascii_of_string "NaN"
  | Int z => Z_chars z
  end.

(** [`${n}`] for a number [n] of the runtime's arithmetic.  The one number
    that the runtime renders so is [Date.now() + 3000]; a time value is an
    integer below 2^53, written with all its digits. *)
Definition number_to_string (n : number) : string :=
  string_of_list_ascii (number_chars n).

(** [Number(s)] on the integer literals: optional white space around an
    optionally signed run of digits; the empty string is 0.  Every other
    string is mapped to [NaN]: literals with a fraction, an exponent or a
    radix prefix denote doubles that the integer model does not hold, and
    nothing below depends on the value given to them. *)
Definition Number_digits (l : list ascii) : number :=
  match take_digits l with
  | (Decimal.Nil, _) => NaN
  | (d, []) => Int (Z.of_N (N.of_uint d))
  | (_, _ :: _) => NaN
  end.

Definition Number_neg (n : number) : number :=
  match n with
  | NaN => NaN
  | Int z => Int (- z)
  end.

Definition Number (s : string) : number :=
  match trim_chars (list_ascii_of_string s) with
  | [] => Int 0
  | c :: l =>
      if Ascii.eqb c "-" then Number_neg (Number_digits l)
      else if Ascii.eqb c "+" then Number_digits l
      else Number_digits (c :: l)
  end.

(** *** Doubles

    A positive double is [m * 2^e] with [m < 2^53] and [-1074 <= e <= 971],
    and [2^52 <= m] unless [e = -1074]. *)

Definition safe_integer (z : Z) : bool :=
  (- 9007199254740991 <=? z) && (z <=? 9007199254740991).

(** [2^e <= num / den] *)
Definition at_least (num den e : Z) : bool :=
  if 0 <=? e then den * 2 ^ e <=? num else den <=? num * 2 ^ (- e).

(** The double nearest to [num / den], for positive [num] and [den], ties
    going to the even mantissa: its mantissa and exponent, [None] beyond the
    largest double.  A mantissa 0 is the result of underflow. *)
Definition round_ratio (num den : Z) : option (Z * Z) :=
  let l := Z.log2 num - Z.log2 den - 52 in
  let e0 := if at_least num den (l + 52) then l else l - 1 in
  let e := Z.max e0 (-1074) in
  let n' := if 0 <=? e then num else num * 2 ^ (- e) in
  let d' := if 0 <=? e then den * 2 ^ e else den in
  let q := n' / d' in
  let r := n' mod d' in
  let m := if 2 * r <? d' then q
           else if d' <? 2 * r then q + 1
           else if Z.even q then q else q + 1 in
  let '(m, e) := if m =? 2 ^ 53 then (2 ^ 52, e + 1) else (m, e) in
  if 971 <? e then None else Some (m, e).

(** The decimal [s * 10^p] as a ratio of integers. *)
Definition ratio (s p : Z) : Z * Z :=
  if 0 <=? p then (s * 10 ^ p, 1) else (s, 10 ^ (- p)).

(** A number without its sign: an integer, a double with a fraction, or
    infinity. *)
Inductive magnitude : Type :=
| Whole (z : Z)
| Fractional (m e : Z)
| Infinite.

Definition magnitude_eqb (x y : magnitude) : bool :=
  match x, y with
  | Whole a, Whole b => a =? b
  | Fractional m e, Fractional m' e' => (m =? m') && (e =? e')
  | Infinite, Infinite => true
  | _, _ => false
  end.

Definition of_double (m e : Z) : magnitude :=
  if m =? 0 then Whole 0
  else if 0 <=? e then Whole (m * 2 ^ e)
  else if m mod 2 ^ (- e) =? 0 then Whole (m / 2 ^ (- e))
  else Fractional m e.

(** The number denoted by the decimal [s * 10^p], [0 <= s]: the double
    nearest to it.  An integer up to 2^53 is a double. *)
Definition decimal_magnitude (s p : Z) : magnitude :=
  let '(n, d) := ratio s p in
  if n =? 0 then Whole 0
  else if (d =? 1) && (n <=? 9007199254740991) then Whole n
  else match round_ratio n d with
       | Some (m, e) => of_double m e
       | None => Infinite
       end.

(** The number as a ratio, and its exact decimal expansion. *)
Definition magnitude_ratio (x : magnitude) : Z * Z :=
  match x with
  | Whole z => (z, 1)
  | Fractional m e => (m, 2 ^ (- e))
  | Infinite => (1, 1)
  end.

Definition expansion (x : magnitude) : Z * Z :=
  match x with
  | Whole z => (z, 0)
  | Fractional m e => (m * 5 ^ (- e), e)
  | Infinite => (1, 0)
  end.

(** The number of decimal digits of a positive integer. *)
Definition digits (z : Z) : Z := Z.of_nat (List.length (Z_chars z)).

(** The [n] with [10^(n-1) <= xn / xd < 10^n]. *)
Definition decimal_exponent (xn xd : Z) : Z :=
  if xd <=? xn then digits (xn / xd)
  else let dq := digits (xd / xn) in
       if xn * 10 ^ (dq - 1) =? xd then 2 - dq else 1 - dq.

(** The decimals of [k] digits on either side of [xn / xd], the closer one
    first, the even one first when they are as close. *)
Definition candidates (xn xd n k : Z) : list (Z * Z) :=
  let p := n - k in
  let n' := if 0 <=? p then xn else xn * 10 ^ (- p) in
  let d' := if 0 <=? p then xd * 10 ^ p else xd in
  let lo := n' / d' in
  let r := n' mod d' in
  let hi := lo + 1 in
  let up := if hi =? 10 ^ k then (10 ^ (k - 1), p + 1) else (hi, p) in
  if 2 * r <? d' then [(lo, p); up]
  else if d' <? 2 * r then [up; (lo, p)]
  else if Z.even lo then [(lo, p); up] else [up; (lo, p)].

(** The decimal is positive and denotes the number [x]. *)
Definition reads_back (x : magnitude) (c : Z * Z) : bool :=
  (0 <? fst c) && magnitude_eqb (decimal_magnitude (fst c) (snd c)) x.

(** The first decimal that denotes [x], with [k] digits, or more. *)
Fixpoint search (x : magnitude) (xn xd n k : Z) (tries : nat) : option (Z * Z) :=
  match tries with
  | O => None
  | S tries' =>
      match List.find (reads_back x) (candidates xn xd n k) with
      | Some c => Some c
      | None => search x xn xd n (k + 1) tries'
      end
  end.

(** The shortest decimal [s * 10^p] that denotes [x], the closest to [x]
    among those: a double has one of 17 digits at most; the exact expansion
    closes the definition. *)
Definition shortest (x : magnitude) : Z * Z :=
  let '(xn, xd) := magnitude_ratio x in
  match search x xn xd (decimal_exponent xn xd) 1 17 with
  | Some c => c
  | None => expansion x
  end.

Definition zeros (n : Z) : list ascii := repeat "0"%char (Z.to_nat n).

Definition exponent_chars (x : Z) : list ascii :=
  "e"%char :: (if 0 <=? x then "+"%char else "-"%char) :: Z_chars (Z.abs x).

(** [Number::toString] on the decimal [s * 10^p] of a positive number: with
    [k] digits and [n = p + k], the digits followed by zeros, the digits
    around a point, the digits behind [0.] and zeros, or one digit, the
    others behind a point, and the exponent [n - 1]. *)
Definition decimal_chars (s p : Z) : list ascii :=
  let ds := Z_chars s in
  let k := Z.of_nat (List.length ds) in
  let n := p + k in
  if (k <=? n) && (n <=? 21) then (ds ++ zeros (n - k))%list
  else if (0 <? n) && (n <=? 21)
       then (firstn (Z.to_nat n) ds ++ "."%char :: skipn (Z.to_nat n) ds)%list
  else if (-6 <? n) && (n <=? 0)
       then ("0"%char :: "."%char :: zeros (- n) ++ ds)%list
  else match ds with
       | [] => []
       | [d] => d :: exponent_chars (n - 1)
       | d :: more => (d :: "."%char :: more ++ exponent_chars (n - 1))%list
       end.

Definition magnitude_chars (x : magnitude) : list ascii :=
  match x with
  | Infinite => list_ascii_of_string "Infinity"
  | Whole z =>
      if z <=? 9007199254740991 then Z_chars z
      else let '(s, p) := shortest x in decimal_chars s p
  | Fractional _ _ => let '(s, p) := shortest x in decimal_chars s p
  end.

Definition signed (negative : bool) (l : list ascii) : list ascii :=
  if negative then "-"%char :: l else l.

(** The magnitude of an integer as a double. *)
Definition Z_magnitude (z : Z) : magnitude := decimal_magnitude (Z.abs z) 0.

(** [Number::toString] *)
Definition Number_toString (n : number) : list ascii :=
  match n with
  | NaN => list_ascii_of_string "NaN"
  | Int z => signed (z <? 0) (magnitude_chars (Z_magnitude z))
  end.

Definition double_toString (d : double) : list ascii :=
  match d with
  | Infinity negative => signed negative (magnitude_chars Infinite)
  | Fraction negative m e => signed negative (magnitude_chars (Fractional m e))
  end.

(** A number from its sign and magnitude. *)
Definition to_value (negative : bool) (x : magnitude) : JsValue :=
  match x with
  | Whole z => VNum (Int (if negative then - z else z))
  | Fractional m e => VDouble (Fraction negative m e)
  | Infinite => VDouble (Infinity negative)
  end.

(** *** Arithmetic used by the runtime *)

(** [a - b] *)
Definition num_sub (a b : number) : number :=
  match a, b with
  | Int x, Int y => Int (x - y)
  | _, _ => NaN
  end.

(** [a + b] on numbers *)
Definition num_add (a b : number) : number :=
  match a, b with
  | Int x, Int y => Int (x + y)
  | _, _ => NaN
  end.

(** [Math.max(a, b)]: [NaN] as soon as an argument is [NaN]. *)
Definition Math_max (a b : number) : number :=
  match a, b with
  | Int x, Int y => Int (Z.max x y)
  | _, _ => NaN
  end.

(** [a < b]: false as soon as an operand is [NaN]. *)
Definition num_ltb (a b : number) : bool :=
  match a, b with
  | Int x, Int y => x <? y
  | _, _ => false
  end.

(** *** Truthiness and conversion to string *)

(** Truthiness of a string: every string but the empty one. *)
Definition truthy_string (s : string) : bool :=
  match s with
  | EmptyString => false
  | String _ _ => true
  end.

(** Truthiness of a [string | null] or [string | undefined]. *)
Definition truthy_opt (o : option string) : bool :=
  match o with
  | Some s => truthy_string s
  | None => false
  end.

(** [a ?? b] *)
Definition nullish {A : Type} (o : option A) (d : A) : A :=
  match o with
  | Some a => a
  | None => d
  end.

(** [Error.prototype.toString]: the name, the message, or both separated
    by a colon. *)
Definition Error_toString (e : ErrorObject) : string :=
  if negb (truthy_string (name e)) then message e
  else if negb (truthy_string (message e)) then name e
  else name e ++ ": " ++ message e.

(** [items.join(sep)] once the items are rendered. *)
Fixpoint join (sep : string) (l : list string) : string :=
  match l with
  | [] => ""
  | [s] => s
  | s :: l' => s ++ sep ++ join sep l'
  end.

(** The object has a property of its own with this name. *)
Definition has_own (key : string) (props : list (string * JsValue)) : bool :=
  existsb (fun kv => String.eqb (fst kv) key) props.

(** [String(v)].  [type_error x] is the [TypeError] that the engine throws
    when [x] cannot be converted.  An array is the join of its elements,
    [null] and [undefined] giving the empty string, a symbol among them
    being refused.  A plain object is converted by the [toString] that it
    inherits; with a [toString] of its own that is not callable, the
    conversion falls back on the inherited [valueOf], which returns the
    object, and throws. *)
Fixpoint String_ (type_error : JsValue -> JsValue) (v : JsValue)
  : Result JsValue string :=
  match v with
  | VUndefined => Returns "undefined"
  | VNull => Returns "null"
  | VBool true => Returns "true"
  | VBool false => Returns "false"
  | VNum n => Returns (string_of_list_ascii (Number_toString n))
  | VDouble d => Returns (string_of_list_ascii (double_toString d))
  | VStr s => Returns s
  | VSymbol d => Returns ("Symbol(" ++ nullish d "" ++ ")")
  | VArr items =>
      match collect (fun x => match x with
                              | VUndefined | VNull => Returns ""
                              | VSymbol _ => Throws (type_error x)
                              | _ => String_ type_error x
                              end) items with
      | Returns pieces => Returns (join "," pieces)
      | Throws z => Throws z
      end
  | VObj props =>
      if has_own "toString" props then Throws (type_error v)
      else Returns "[object Object]"
  | VErr e => Returns (Error_toString e)
  | VOther to_string _ => to_string
  end.

(** *** [JSON.stringify] *)

Definition hex_digit (n : nat) : ascii :=
  if (n <? 10)%nat then chr (48 + n) else chr (87 + n).

(** The escape of one character inside a JSON string literal: the quote and
    the backslash, the short escapes of BS, TAB, LF, FF and CR, [\u00xx]
    for the other control characters; every other character stands for
    itself. *)
Definition escape_char (c : ascii) : list ascii :=
  let n := code c in
  if (n =? 34)%nat then ["\"%char; DQUOTE]
  else if (n =? 92)%nat then ["\"; "\"]%char
  else if (n =? 8)%nat then ["\"; "b"]%char
  else if (n =? 9)%nat then ["\"; "t"]%char
  else if (n =? 10)%nat then ["\"; "n"]%char
  else if (n =? 12)%nat then ["\"; "f"]%char
  else if (n =? 13)%nat then ["\"; "r"]%char
  else if (n <? 32)%nat
       then ["\"; "u"; "0"; "0"; hex_digit (n / 16); hex_digit (n mod 16)]%char
  else [c].

Definition quote_chars (l : list ascii) : list ascii :=
  DQUOTE :: flat_map escape_char l ++ [DQUOTE].

Definition quote (s : string) : list ascii :=
  quote_chars (list_ascii_of_string s).

(** The pieces of an array or of an object, separated by commas. *)
Fixpoint join_chars (l : list (list ascii)) : list ascii :=
  match l with
  | [] => []
  | [p] => p
  | p :: l' => p ++ ","%char :: join_chars l'
  end.

(** [JSON.stringify(v)] as characters; [None] is the result [undefined].
    Inside an array [undefined] is written [null]; a property whose value
    is [undefined] is left out; [NaN] and the infinities are written
    [null]; a symbol is [undefined]; an [Error] has no enumerable property
    of its own and is written as the empty object.  The elements and the
    properties are written in order, and the first one that throws ends the
    call. *)
Fixpoint stringify_chars (v : JsValue) : Result JsValue (option (list ascii)) :=
  match v with
  | VUndefined => Returns None
  | VNull => Returns (Some (list_ascii_of_string "null"))
  | VBool true => Returns (Some (list_ascii_of_string "true"))
  | VBool false => Returns (Some (list_ascii_of_string "false"))
  | VNum NaN => Returns (Some (list_ascii_of_string "null"))
  | VNum (Int z) => Returns (Some (Number_toString (Int z)))
  | VDouble (Infinity _) => Returns (Some (list_ascii_of_string "null"))
  | VDouble (Fraction negative m e) =>
      Returns (Some (double_toString (Fraction negative m e)))
  | VStr s => Returns (Some (quote s))
  | VSymbol _ => Returns None
  | VArr items =>
      match collect (fun x => match stringify_chars x with
                              | Returns t =>
                                  Returns (nullish t (list_ascii_of_string "null"))
                              | Throws z => Throws z
                              end) items with
      | Returns pieces => Returns (Some ("["%char :: join_chars pieces ++ ["]"%char]))
      | Throws z => Throws z
      end
  | VObj props =>
      match collect (fun kv => match stringify_chars (snd kv) with
                               | Returns (Some t) =>
                                   Returns [(quote (fst kv) ++ ":"%char :: t)%list]
                               | Returns None => Returns []
                               | Throws z => Throws z
                               end) props with
      | Returns pieces =>
          Returns (Some ("{"%char :: join_chars (concat pieces) ++ ["}"%char]))
      | Throws z => Throws z
      end
  | VErr _ => Returns (Some (list_ascii_of_string "{}"))
  | VOther _ (Returns t) => Returns (option_map list_ascii_of_string t)
  | VOther _ (Throws z) => Throws z
  end.

Definition JSON_stringify (v : JsValue) : Result JsValue (option string) :=
  match stringify_chars v with
  | Returns t => Returns (option_map string_of_list_ascii t)
  | Throws z => Throws z
  end.

(** *** [JSON.parse] *)

Definition is_json_space (c : ascii) : bool :=
  let n := code c in
  (n =? 32)%nat || (n =? 9)%nat || (n =? 10)%nat || (n =? 13)%nat.

Fixpoint skip_ws (l : list ascii) : list ascii :=
  match l with
  | c :: l' => if is_json_space c then skip_ws l' else l
  | [] => []
  end.

Fixpoint strip_prefix (p l : list ascii) : option (list ascii) :=
  match p, l with
  | [], _ => Some l
  | a :: p', b :: l' => if Ascii.eqb a b then strip_prefix p' l' else None
  | _ :: _, [] => None
  end.

Definition hex_value (c : ascii) : option nat :=
  let n := code c in
  if ((48 <=? n) && (n <=? 57))%nat then Some (n - 48)%nat
  else if ((97 <=? n) && (n <=? 102))%nat then Some (n - 87)%nat
  else if ((65 <=? n) && (n <=? 70))%nat then Some (n - 55)%nat
  else None.

(** The code unit written [\uhhhh]; a code unit above 255 is outside the
    character model and is refused. *)
Definition unicode_escape (h1 h2 h3 h4 : ascii) : option ascii :=
  match hex_value h1, hex_value h2, hex_value h3, hex_value h4 with
  | Some a, Some b, Some c, Some d =>
      let n := (4096 * a + 256 * b + 16 * c + d)%nat in
      if (n <? 256)%nat then Some (chr n) else None
  | _, _, _, _ => None
  end.

Definition short_escape (c : ascii) : option ascii :=
  let n := code c in
  if (n =? 34)%nat then Some c
  else if (n =? 92)%nat then Some c
  else if (n =? 47)%nat then Some c
  else if (n =? 98)%nat then Some (chr 8)
  else if (n =? 116)%nat then Some (chr 9)
  else if (n =? 110)%nat then Some (chr 10)
  else if (n =? 102)%nat then Some (chr 12)
  else if (n =? 114)%nat then Some (chr 13)
  else None.

Definition cons_fst {A B : Type} (a : A) (r : option (list A * B))
  : option (list A * B) :=
  match r with
  | Some (l, b) => Some (a :: l, b)
  | None => None
  end.

(** The characters of a string literal after its opening quote, up to the
    closing quote, and what follows the literal. *)
Fixpoint parse_string_body (l : list ascii) : option (list ascii * list ascii) :=
  match l with
  | [] => None
  | c :: l1 =>
      if (code c =? 34)%nat then Some ([], l1)
      else if (code c =? 92)%nat then
        match l1 with
        | [] => None
        | e :: l2 =>
            if (code e =? 117)%nat then
              match l2 with
              | h1 :: h2 :: h3 :: h4 :: l3 =>
                  match unicode_escape h1 h2 h3 h4 with
                  | Some u => cons_fst u (parse_string_body l3)
                  | None => None
                  end
              | _ => None
              end
            else
              match short_escape e with
              | Some u => cons_fst u (parse_string_body l2)
              | None => None
              end
        end
      else if (code c <? 32)%nat then None
      else cons_fst c (parse_string_body l1)
  end.

(** The longest prefix of digits, and what follows it. *)
Fixpoint span_digits (l : list ascii) : list ascii * list ascii :=
  match l with
  | c :: l' =>
      if is_digit c
      then let '(ds, rest) := span_digits l' in (c :: ds, rest)
      else ([], l)
  | [] => ([], [])
  end.

Definition digit_value (c : ascii) : Z := Z.of_nat (code c - 48).

(** The integer written by a run of digits. *)
Definition digits_value (l : list ascii) : Z :=
  fold_left (fun a c => 10 * a + digit_value c) l 0.

(** A run of digits with a superfluous leading zero. *)
Definition leading_zero (l : list ascii) : bool :=
  match l with
  | c :: _ :: _ => (code c =? 48)%nat
  | _ => false
  end.

(** A character that makes a number literal go on: the point of a fraction
    or the letter of an exponent. *)
Definition continues_number (l : list ascii) : bool :=
  match l with
  | c :: _ => (code c =? 46)%nat || (code c =? 101)%nat || (code c =? 69)%nat
  | [] => false
  end.

(** The fraction of a number literal: a point and at least one digit. *)
Definition read_fraction (l : list ascii) : option (list ascii * list ascii) :=
  match l with
  | c :: l' =>
      if (code c =? 46)%nat then
        match span_digits l' with
        | ([], _) => None
        | (fd, rest) => Some (fd, rest)
        end
      else Some ([], l)
  | [] => Some ([], [])
  end.

(** The exponent of a number literal: [e] or [E], an optional sign and at
    least one digit. *)
Definition read_exponent (l : list ascii) : option (Z * list ascii) :=
  match l with
  | c :: l' =>
      if (code c =? 101)%nat || (code c =? 69)%nat then
        let '(negative, l2) :=
          match l' with
          | s :: t =>
              if (code s =? 45)%nat then (true, t)
              else if (code s =? 43)%nat then (false, t)
              else (false, l')
          | [] => (false, [])
          end in
        match span_digits l2 with
        | ([], _) => None
        | (ds, rest) =>
            Some (if negative then - digits_value ds else digits_value ds, rest)
        end
      else Some (0, l)
  | [] => Some (0, [])
  end.

(** The value of the literal with the digits [s] and the exponent [p]. *)
Definition number_value (negative : bool) (s p : Z) : JsValue :=
  to_value negative (decimal_magnitude s p).

(** A number literal after its sign: an integer part without a superfluous
    leading zero, an optional fraction, an optional exponent. *)
Definition parse_number (negative : bool) (l : list ascii)
  : option (JsValue * list ascii) :=
  match span_digits l with
  | ([], _) => None
  | (int, r1) =>
      if leading_zero int then None
      else match read_fraction r1 with
           | None => None
           | Some (fd, r2) =>
               match read_exponent r2 with
               | None => None
               | Some (ex, r3) =>
                   Some (number_value negative (digits_value (int ++ fd))
                                      (ex - Z.of_nat (List.length fd)), r3)
               end
           end
  end.

(** How an object is built from its members, in source order: a key met
    again keeps its place and takes the later value. *)
Fixpoint obj_set (k : string) (v : JsValue) (props : list (string * JsValue))
  : list (string * JsValue) :=
  match props with
  | [] => [(k, v)]
  | (k', v') :: props' =>
      if String.eqb k k' then (k, v) :: props'
      else (k', v') :: obj_set k v props'
  end.

Definition build_object (members : list (string * JsValue)) : list (string * JsValue) :=
  fold_left (fun acc kv => obj_set (fst kv) (snd kv) acc) members [].

(** The recursive descent over values, elements and members; [fuel] bounds
    the depth of the calls and is given by the length of the text. *)
Fixpoint parse_value (fuel : nat) (l : list ascii) {struct fuel}
  : option (JsValue * list ascii) :=
  match fuel with
  | O => None
  | S fuel' =>
      match skip_ws l with
      | [] => None
      | c :: l1 =>
          let n := code c in
          if (n =? 110)%nat then
            option_map (pair VNull) (strip_prefix (list_ascii_of_string "ull") l1)
          else if (n =? 116)%nat then
            option_map (pair (VBool true)) (strip_prefix (list_ascii_of_string "rue") l1)
          else if (n =? 102)%nat then
            option_map (pair (VBool false)) (strip_prefix (list_ascii_of_string "alse") l1)
          else if (n =? 34)%nat then
            match parse_string_body l1 with
            | Some (s, rest) => Some (VStr (string_of_list_ascii s), rest)
            | None => None
            end
          else if (n =? 45)%nat then parse_number true l1
          else if is_digit c then parse_number false (c :: l1)
          else if (n =? 91)%nat then
            match skip_ws l1 with
            | c2 :: l2 =>
                if (code c2 =? 93)%nat then Some (VArr [], l2)
                else match parse_elements fuel' l1 with
                     | Some (items, rest) => Some (VArr items, rest)
                     | None => None
                     end
            | [] => None
            end
          else if (n =? 123)%nat then
            match skip_ws l1 with
            | c2 :: l2 =>
                if (code c2 =? 125)%nat then Some (VObj [], l2)
                else match parse_members fuel' l1 with
                     | Some (members, rest) => Some (VObj (build_object members), rest)
                     | None => None
                     end
            | [] => None
            end
          else None
      end
  end

with parse_elements (fuel : nat) (l : list ascii) {struct fuel}
  : option (list JsValue * list ascii) :=
  match fuel with
  | O => None
  | S fuel' =>
      match parse_value fuel' l with
      | Some (v, rest) =>
          match skip_ws rest with
          | c :: rest' =>
              if (code c =? 44)%nat then cons_fst v (parse_elements fuel' rest')
              else if (code c =? 93)%nat then Some ([v], rest')
              else None
          | [] => None
          end
      | None => None
      end
  end

with parse_members (fuel : nat) (l : list ascii) {struct fuel}
  : option (list (string * JsValue) * list ascii) :=
  match fuel with
  | O => None
  | S fuel' =>
      match skip_ws l with
      | c :: l1 =>
          if (code c =? 34)%nat then
            match parse_string_body l1 with
            | Some (k, l2) =>
                match skip_ws l2 with
                | c2 :: l3 =>
                    if (code c2 =? 58)%nat then
                      match parse_value fuel' l3 with
                      | Some (v, rest) =>
                          match skip_ws rest with
                          | c3 :: rest' =>
                              if (code c3 =? 44)%nat then
                                cons_fst (string_of_list_ascii k, v)
                                         (parse_members fuel' rest')
                              else if (code c3 =? 125)%nat then
                                Some ([(string_of_list_ascii k, v)], rest')
                              else None
                          | [] => None
                          end
                      | None => None
                      end
                    else None
                | [] => None
                end
            | None => None
            end
          else None
      | [] => None
      end
  end.

(** [JSON.parse(s)]; [None] stands for the [SyntaxError] it throws. *)
Definition parse_chars (l : list ascii) : option JsValue :=
  match parse_value (S (S (length l))) l with
  | Some (v, rest) =>
      match skip_ws rest with
      | [] => Some v
      | _ :: _ => None
      end
  | None => None
  end.

Definition JSON_parse (s : string) : option JsValue :=
  parse_chars (list_ascii_of_string s).

End Js.

Import Js.

(** ** The engine

    What [new Error(message)] records as [stack], the message of the
    [SyntaxError] thrown by [JSON.parse] and the message of the [TypeError]
    thrown by the conversion of a value to a string are chosen by the
    JavaScript engine; the runtime is modelled for any engine. *)
Record Engine : Type := mkEngine {
  capture_stack : string -> string -> option string;
  syntax_error_message : string -> string;
  type_error_message : JsValue -> string
}.

(** ** Effects, outcomes and the computation monad *)

(** How an awaited operation of the outside world settles, if it does. *)
Inductive Outcome (A : Type) : Type :=
| Resolved (a : A)
| Rejected (e : JsValue)
| Pending.
Arguments Resolved {A} a.
Arguments Rejected {A} e.
Arguments Pending {A}.

(** The response to a poll: its headers, and how [res.json()] settles. *)
Record Response : Type := mkResponse {
  headers : list (string * string);
  json : Outcome JsValue
}.

(** [res.headers.get(name)]; [None] is [null]. *)
Fixpoint headers_get (h : list (string * string)) (key : string) : option string :=
  match h with
  | [] => None
  | (k, v) :: h' => if String.eqb k key then Some v else headers_get h' key
  end.

(** The type [Context].  [awsRequestId] is declared a string; at run time
    it is [null] when the poll response has no request id, hence the
    option. *)
Record Context : Type := mkContext {
  awsRequestId : option string;
  invokedFunctionArn : option string;
  deadlineMs : number;
  functionName : option string;
  functionVersion : option string;
  memoryLimitInMB : option string;
  logGroupName : option string;
  logStreamName : option string;
  clientContext : JsValue;
  identity : JsValue;
  (** the argument is the reading of [Date.now()] when the method is called *)
  getRemainingTimeInMillis : Z -> number
}.

(** [Handler<A>]: the handler settles with a value, throws, or never
    settles. *)
Definition Handler : Type := JsValue -> Context -> Outcome JsValue.

(** The effects of the runtime that the outside world observes, each with
    the way it settled. *)
Inductive Effect : Type :=
| Fetch_GET (url : string) (res : Outcome Response)
| Fetch_POST (url : string) (content_type : string) (body : option string)
             (res : Outcome unit)
| Invoke (event : JsValue) (ctx : Context) (res : Outcome JsValue)
| Console_error (msg : string)
| Process_exit (code : Z).

(** How a computation ends: with a value, with a thrown value, with the
    exit of the process, or suspended for ever on a call that never
    settles. *)
Inductive Completion (A : Type) : Type :=
| Done (a : A)
| Thrown (e : JsValue)
| Exited (code : Z)
| Blocked.
Arguments Done {A} a.
Arguments Thrown {A} e.
Arguments Exited {A} code.
Arguments Blocked {A}.

(** A run of a computation: how it ends, [process.env] at that point, and
    the effects it issued, in order. *)
Record Run (A : Type) : Type := mkRun {
  completion : Completion A;
  env_after : gmap string string;
  trace : list Effect
}.
Arguments mkRun {A} _ _ _.
Arguments completion {A} _.
Arguments env_after {A} _.
Arguments trace {A} _.

(** A computation, from the [process.env] it starts with. *)
Definition M (A : Type) : Type := gmap string string -> Run A.

Definition ret {A : Type} (a : A) : M A := fun e => mkRun (Done a) e [].

(** The run [r], after the effects [t]. *)
Definition after {A : Type} (t : list Effect) (r : Run A) : Run A :=
  match r with
  | mkRun c e t' => mkRun c e (t ++ t')
  end.

Definition bind {A B : Type} (m : M A) (k : A -> M B) : M B :=
  fun e =>
    match m e with
    | mkRun (Done a) e' t => after t (k a e')
    | mkRun (Thrown x) e' t => mkRun (Thrown x) e' t
    | mkRun (Exited c) e' t => mkRun (Exited c) e' t
    | mkRun Blocked e' t => mkRun Blocked e' t
    end.

Definition throw {A : Type} (x : JsValue) : M A := fun e => mkRun (Thrown x) e [].

(** [try { m } catch (x) { h x }] *)
Definition try_catch {A : Type} (m : M A) (h : JsValue -> M A) : M A :=
  fun e =>
    match m e with
    | mkRun (Thrown x) e' t => after t (h x e')
    | r => r
    end.

Definition log (ev : Effect) : M unit := fun e => mkRun (Done tt) e [ev].

(** [await p] for a promise of the outside world that settles as [o]. *)
Definition await {A : Type} (o : Outcome A) : M A :=
  fun e =>
    match o with
    | Resolved a => mkRun (Done a) e []
    | Rejected x => mkRun (Thrown x) e []
    | Pending => mkRun Blocked e []
    end.

(** A conversion of the language inside a computation. *)
Definition eval {A : Type} (r : Result JsValue A) : M A :=
  match r with
  | Returns a => ret a
  | Throws x => throw x
  end.

Definition get_env : M (gmap string string) := fun e => mkRun (Done e) e [].

Definition set_env (key value : string) : M unit :=
  fun e => mkRun (Done tt) (<[key := value]> e) [].

Declare Scope js_scope.
Delimit Scope js_scope with js.
Notation "'let*' x ':=' m 'in' k" := (bind m (fun x => k))
  (at level 10, x name, m at level 100, k at level 200) : js_scope.
Notation "m ';;;' k" := (bind m (fun _ => k))
  (at level 100, k at level 200, right associativity) : js_scope.
Open Scope js_scope.

(** ** The host *)

(** The fate of a POST, by the URL it is sent to. *)
Definition Delivery : Type := string -> Outcome unit.

(** What the host does during one turn of the loop: its answer to the poll,
    the reading of the clock in the poll step, the fate of the reports. *)
Record Cycle : Type := mkCycle {
  poll : Outcome Response;
  clock : Z;
  delivery : Delivery
}.

(** The result of [getNext]. *)
Module Next.
Record t : Type := mk {
  requestId : option string;
  invokedArn : option string;
  deadlineMs : number;
  clientContext : JsValue;
  identity : JsValue;
  event : JsValue
}.
End Next.

(** [{errorType, errorMessage, stackTrace}] *)
Record ErrorPayload : Type := mkErrorPayload {
  errorType : string;
  errorMessage : string;
  stackTrace : list string
}.

(** The object literal returned by [toErrorPayload], as a value. *)
Definition payload_value (p : ErrorPayload) : JsValue :=
  VObj [("errorType", VStr (errorType p));
        ("errorMessage", VStr (errorMessage p));
        ("stackTrace", VArr (map VStr (stackTrace p)))].

(** [a ?? b] where [b] is a conversion, made only when [a] is [null] or
    [undefined]. *)
Definition nullish_else {A : Type} (o : option A) (d : Result JsValue A)
  : Result JsValue A :=
  match o with
  | Some a => Returns a
  | None => d
  end.

(** A string or [undefined] / [null] inside a template literal. *)
Definition template (absent : string) (o : option string) : string :=
  nullish o absent.

Section Runtime.

Variable engine : Engine.

(** [new Error(message)] *)
Definition new_Error (msg : string) : ErrorObject :=
  mkError "Error" msg (capture_stack engine "Error" msg).

(** The [SyntaxError] thrown by [JSON.parse(text)]. *)
Definition SyntaxError (text : string) : JsValue :=
  let msg := syntax_error_message engine text in
  VErr (mkError "SyntaxError" msg (capture_stack engine "SyntaxError" msg)).

(** [JSON.parse(text)] as a computation. *)
Definition JSON_parse_M (text : string) : M JsValue :=
  match JSON_parse text with
  | Some v => ret v
  | None => throw (SyntaxError text)
  end.

(** [const RUNTIME_API = process.env["AWS_LAMBDA_RUNTIME_API"]] *)
Definition RUNTIME_API (e : gmap string string) : option string :=
  e !! "AWS_LAMBDA_RUNTIME_API".

(** The [TypeError] thrown when [v] cannot be converted to a string. *)
Definition TypeError (v : JsValue) : JsValue :=
  let msg := type_error_message engine v in
  VErr (mkError "TypeError" msg (capture_stack engine "TypeError" msg)).

(** [err instanceof Error ? err : new Error(String(err))] *)
Definition as_Error (err : JsValue) : Result JsValue ErrorObject :=
  match err with
  | VErr e => Returns e
  | _ =>
      match String_ TypeError err with
      | Returns s => Returns (new_Error s)
      | Throws x => Throws x
      end
  end.

(** [toErrorPayload] (runtime.ts, lines 24-31).  It throws what
    [String(err)] throws on line 25; the message of an [Error] is a string,
    never [null] or [undefined], so that line 28 does not convert [err]
    again. *)
Definition toErrorPayload (err : JsValue) : Result JsValue ErrorPayload :=
  match as_Error err with
  | Returns e =>
      match nullish_else (Some (message e)) (String_ TypeError err) with
      | Returns msg =>
          Returns {| errorType := if truthy_string (name e) then name e else "Error";
                     errorMessage := msg;
                     stackTrace := map trim (split LF (nullish (stack e) "")) |}
      | Throws x => Throws x
      end
  | Throws x => Throws x
  end.

(** [typeof payload === "string" ? payload : JSON.stringify(payload)] *)
Definition post_body (payload : JsValue) : Result JsValue (option string) :=
  match payload with
  | VStr s => Returns (Some s)
  | _ => JSON_stringify payload
  end.

(** [post] (lines 33-39); [net url] is what becomes of the request.  The
    body is computed before [fetch] is called: when [JSON.stringify]
    throws, no request is issued. *)
Definition post (net : Delivery) (url : string) (payload : JsValue) : M unit :=
  let* body := eval (post_body payload) in
  log (Fetch_POST url "application/json" body (net url)) ;;;
  await (net url).

Definition init_error_url (api : option string) : string :=
  "http://" ++ template "undefined" api ++ "/2018-06-01/runtime/init/error".

(** [reportInitError] (lines 41-49) *)
Definition reportInitError (api : option string) (net : Delivery) (err : JsValue)
  : M unit :=
  if negb (truthy_opt api) then ret tt
  else try_catch
         (let* payload := eval (toErrorPayload err) in
          post net (init_error_url api) (payload_value payload))
         (fun _ => ret tt).

Definition next_url (api : option string) : string :=
  "http://" ++ template "undefined" api ++ "/2018-06-01/runtime/invocation/next".

(** [getNext] (lines 51-75).  The request id is read with a non-null
    assertion that has no effect at run time: it is [null] when the header
    is missing. *)
Definition getNext (api : option string) (c : Cycle) : M Next.t :=
  log (Fetch_GET (next_url api) (poll c)) ;;;
  let* res := await (poll c) in
  let requestId := headers_get (headers res) "Lambda-Runtime-Aws-Request-Id" in
  let trace_id := headers_get (headers res) "Lambda-Runtime-Trace-Id" in
  let invokedArn := headers_get (headers res) "Lambda-Runtime-Invoked-Function-Arn" in
  let deadlineMsStr :=
    nullish (headers_get (headers res) "Lambda-Runtime-Deadline-Ms")
            (number_to_string (num_add (Int (clock c)) (Int 3000))) in
  let clientContext := headers_get (headers res) "Lambda-Runtime-Client-Context" in
  let identity := headers_get (headers res) "Lambda-Runtime-Cognito-Identity" in
  let* event := await (json res) in
  (if truthy_opt trace_id
   then set_env "_X_AMZN_TRACE_ID" (nullish trace_id "")
   else ret tt) ;;;
  let* cc := (if truthy_opt clientContext
              then JSON_parse_M (nullish clientContext "")
              else ret VUndefined) in
  let* idn := (if truthy_opt identity
               then JSON_parse_M (nullish identity "")
               else ret VUndefined) in
  ret (Next.mk requestId invokedArn (Number deadlineMsStr) cc idn event).

(** [buildContext] (lines 77-99); [process.env], which the source reads as
    a global, is the argument [e]. *)
Definition buildContext (e : gmap string string) (base : Next.t) : Context :=
  {| awsRequestId := Next.requestId base;
     invokedFunctionArn := Next.invokedArn base;
     deadlineMs := Next.deadlineMs base;
     functionName := e !! "AWS_LAMBDA_FUNCTION_NAME";
     functionVersion := e !! "AWS_LAMBDA_FUNCTION_VERSION";
     memoryLimitInMB := e !! "AWS_LAMBDA_FUNCTION_MEMORY_SIZE";
     logGroupName := e !! "AWS_LAMBDA_LOG_GROUP_NAME";
     logStreamName := e !! "AWS_LAMBDA_LOG_STREAM_NAME";
     clientContext := Next.clientContext base;
     identity := Next.identity base;
     getRemainingTimeInMillis := fun now =>
       Math_max (Int 0) (num_sub (Next.deadlineMs base) (Int now)) |}.

Definition response_url (api requestId : option string) : string :=
  "http://" ++ template "undefined" api ++ "/2018-06-01/runtime/invocation/"
  ++ template "null" requestId ++ "/response".

Definition error_url (api requestId : option string) : string :=
  "http://" ++ template "undefined" api ++ "/2018-06-01/runtime/invocation/"
  ++ template "null" requestId ++ "/error".

(** [respond] (lines 101-106) *)
Definition respond (api : option string) (net : Delivery)
  (requestId : option string) (result : JsValue) : M unit :=
  post net (response_url api requestId) result.

(** [respondError] (lines 108-113) *)
Definition respondError (api : option string) (net : Delivery)
  (requestId : option string) (err : JsValue) : M unit :=
  let* payload := eval (toErrorPayload err) in
  post net (error_url api requestId) (payload_value payload).

(** [await handler(next.event, ctx)] *)
Definition call (handler : Handler) (event : JsValue) (ctx : Context) : M JsValue :=
  log (Invoke event ctx (handler event ctx)) ;;;
  await (handler event ctx).

(** The body of the loop after the poll step (lines 126-132): the context,
    and the [try { ... } catch (e) { ... }] statement. *)
Definition dispatch (api : option string) (handler : Handler) (c : Cycle)
  (next : Next.t) : M unit :=
  let* e := get_env in
  let ctx := buildContext e next in
  try_catch
    (let* out := call handler (Next.event next) ctx in
     respond api (delivery c) (Next.requestId next) out)
    (fun x => respondError api (delivery c) (Next.requestId next) x).

(** One turn of the [for (;;)] loop of [start] (lines 125-132). *)
Definition iteration (api : option string) (handler : Handler) (c : Cycle) : M unit :=
  let* next := getNext api c in
  dispatch api handler c next.

(** The first turns of the loop, one per answered poll. *)
Fixpoint turns (api : option string) (handler : Handler) (cycles : list Cycle)
  : M unit :=
  match cycles with
  | [] => ret tt
  | c :: rest => iteration api handler c ;;; turns api handler rest
  end.

(** The host that never answers the poll. *)
Definition silent : Cycle := mkCycle Pending 0 (fun _ => Pending).

(** The [for (;;)] loop against a host that plays the given turns and then
    leaves the poll unanswered. *)
Fixpoint loop (api : option string) (handler : Handler) (cycles : list Cycle)
  : M Empty_set :=
  match cycles with
  | [] => getNext api silent ;;; await Pending
  | c :: rest => iteration api handler c ;;; loop api handler rest
  end.

Definition console_error (msg : string) : M unit := log (Console_error msg).

Definition process_exit {A : Type} (code : Z) : M A :=
  fun e => mkRun (Exited code) e [Process_exit code].

(** [start] (lines 115-134); [init] is the fate of a POST sent before the
    loop. *)
Definition start (handler : Handler) (init : Delivery) (cycles : list Cycle)
  : M Empty_set :=
  let* e := get_env in
  let api := RUNTIME_API e in
  if negb (truthy_opt api) then
    reportInitError api init
      (VErr (new_Error "AWS_LAMBDA_RUNTIME_API is not set. Not on Lambda?")) ;;;
    console_error "Not running in Lambda (AWS_LAMBDA_RUNTIME_API missing)." ;;;
    process_exit 1
  else loop api handler cycles.

End Runtime.

(** ** Reading a trace *)

(** The [i]-th effect of the trace is a poll. *)
Definition poll_at (api : option string) (T : list Effect) (i : nat) : bool :=
  match T !! i with
  | Some (Fetch_GET url _) => String.eqb url (next_url api)
  | _ => false
  end.

Definition settled {A : Type} (o : Outcome A) : bool :=
  match o with
  | Pending => false
  | _ => true
  end.

(** The effect is a POST to the response or to the error endpoint of the
    request id [rid], and the call has returned or thrown. *)
Definition is_report (api rid : option string) (ev : Effect) : bool :=
  match ev with
  | Fetch_POST url _ _ o =>
      (String.eqb url (response_url api rid) || String.eqb url (error_url api rid))
      && settled o
  | _ => false
  end.

(** The request id handed out by a poll that was answered. *)
Definition polled_id (ev : Effect) : option (option string) :=
  match ev with
  | Fetch_GET _ (Resolved res) =>
      Some (headers_get (headers res) "Lambda-Runtime-Aws-Request-Id")
  | _ => None
  end.

(** The [k]-th effect is a settled report for the invocation handed out by
    the [i]-th effect. *)
Definition report_at (api : option string) (T : list Effect) (i k : nat) : bool :=
  match T !! i, T !! k with
  | Some g, Some r =>
      match polled_id g with
      | Some rid => is_report api rid r
      | None => false
      end
  | _, _ => false
  end.

Definition is_get (ev : Effect) : bool :=
  match ev with
  | Fetch_GET _ _ => true
  | _ => false
  end.

(** The number of GET requests of a trace. *)
Definition polls (T : list Effect) : nat := length (filter (fun ev => is_get ev = true) T).

(** The bodies of the POSTs that a trace sends to [url], in order. *)
Fixpoint posted (url : string) (T : list Effect) : list (option string) :=
  match T with
  | [] => []
  | Fetch_POST u _ b _ :: T' =>
      if String.eqb u url then b :: posted url T' else posted url T'
  | _ :: T' => posted url T'
  end.

(** The HTTP requests of a trace. *)
Inductive Request : Type :=
| GET (url : string)
| POST (url : string) (body : option string).

Fixpoint requests (T : list Effect) : list Request :=
  match T with
  | [] => []
  | Fetch_GET url _ :: T' => GET url :: requests T'
  | Fetch_POST url _ body _ :: T' => POST url body :: requests T'
  | _ :: T' => requests T'
  end.

(** The request ids with which the handler is invoked, in order. *)
Fixpoint invoked (T : list Effect) : list (option string) :=
  match T with
  | [] => []
  | Invoke _ ctx _ :: T' => awsRequestId ctx :: invoked T'
  | _ :: T' => invoked T'
  end.

(** The poll that opens the next turn of the loop. *)
Definition next_poll (rest : list Cycle) : Outcome Response :=
  match rest with
  | [] => Pending
  | c :: _ => poll c
  end.

(** The completion of an awaited call. *)
Definition completion_of (o : Outcome unit) : Completion unit :=
  match o with
  | Resolved u => Done u
  | Rejected x => Thrown x
  | Pending => Blocked
  end.

(** A trace in which every poll but the last is followed, before the next
    poll, by a settled report for the invocation it handed out. *)
Inductive sequential (api : option string) : list Effect -> Prop :=
| seq_quiet tl :
    Forall (fun ev => is_get ev = false) tl ->
    sequential api tl
| seq_last g tl :
    Forall (fun ev => is_get ev = false) tl ->
    sequential api (g :: tl)
| seq_turn g rid tl r T :
    polled_id g = Some rid ->
    Forall (fun ev => is_get ev = false) tl ->
    is_report api rid r = true ->
    sequential api T ->
    sequential api (g :: tl ++ r :: T).

(** ** JSON values

    The values that [JSON.stringify] and [JSON.parse] carry without loss:
    [null], booleans, finite numbers, strings, arrays of such values and
    plain objects of such values; the keys of an object are distinct. *)

(** The integer is a double: the double nearest to it is the integer. *)
Definition is_double_integer (z : Z) : bool :=
  magnitude_eqb (Z_magnitude z) (Whole (Z.abs z)).

(** [m * 2^e] is a double with a fraction: the double nearest to its
    decimal expansion is [m * 2^e], and it is not an integer. *)
Definition is_double_fraction (m e : Z) : bool :=
  reads_back (Fractional m e) (expansion (Fractional m e)).

(** The number is zero, an integer up to 2^53, or a double: the double
    nearest to its decimal expansion is the number itself. *)
Definition readable (x : magnitude) : bool :=
  match x with
  | Whole z =>
      ((0 <=? z) && (z <=? 9007199254740991)) || reads_back x (expansion x)
  | Fractional _ _ => reads_back x (expansion x)
  | Infinite => false
  end.

Fixpoint distinct (keys : list string) : bool :=
  match keys with
  | [] => true
  | k :: keys' => negb (existsb (String.eqb k) keys') && distinct keys'
  end.

Fixpoint json_value (v : JsValue) : bool :=
  match v with
  | VUndefined => false
  | VNull => true
  | VBool _ => true
  | VNum NaN => false
  | VNum (Int z) => is_double_integer z
  | VDouble (Infinity _) => false
  | VDouble (Fraction _ m e) => is_double_fraction m e
  | VStr _ => true
  | VSymbol _ => false
  | VArr items => forallb json_value items
  | VObj props =>
      distinct (map fst props) && forallb (fun kv => json_value (snd kv)) props
  | VErr _ => false
  | VOther _ _ => false
  end.

Definition is_string (v : JsValue) : bool :=
  match v with
  | VStr _ => true
  | _ => false
  end.

(** The last character of a string. *)
Fixpoint last_char (s : string) : ascii :=
  match s with
  | EmptyString => Ascii.zero
  | String c EmptyString => c
  | String _ s' => last_char s'
  end.

(** A list of characters that does not begin with white space. *)
Definition clean_head (l : list ascii) : Prop :=
  match l with
  | [] => True
  | c :: _ => is_trim_space c = false
  end.

(** The pieces of a split, put together again around the separator. *)
Fixpoint unsplit (sep : ascii) (pieces : list (list ascii)) : list ascii :=
  match pieces with
  | [] => []
  | [p] => p
  | p :: ps => p ++ sep :: unsplit sep ps
  end.

(** The characters written by [JSON.stringify] for a value inside an array;
    for a value that [JSON.stringify] does write, its characters. *)
Definition ser (v : JsValue) : list ascii :=
  match stringify_chars v with
  | Returns (Some t) => t
  | _ => list_ascii_of_string "null"
  end.

(** The JSON text of an error payload. *)
Definition payload_text (p : ErrorPayload) : string :=
  string_of_list_ascii (ser (payload_value p)).

(** One member of an object, as [JSON.stringify] writes it. *)
Definition member (kv : string * JsValue) : list ascii :=
  (quote (fst kv) ++ ":"%char :: ser (snd kv))%list.

(** What may follow a number literal without being read as part of it. *)
Definition delimited (rest : list ascii) : Prop :=
  starts_with_digit rest = false /\ continues_number rest = false.

(** The text that [JSON.stringify] writes for [v] parses back to [v], with
    any fuel above its length and whatever follows it. *)
Definition parses (v : JsValue) : Prop :=
  forall fuel rest,
    delimited rest ->
    (length (ser v) < fuel)%nat ->
    parse_value fuel (ser v ++ rest) = Some (v, rest).

(** The characters that open a JSON text. *)
Definition value_start (c : ascii) : bool :=
  let n := code c in
  (n =? 110)%nat || (n =? 116)%nat || (n =? 102)%nat || (n =? 34)%nat
  || (n =? 45)%nat || is_digit c || (n =? 91)%nat || (n =? 123)%nat.

(** Induction on values, through the items of arrays and the properties of
    objects. *)
Definition JsValue_nested_ind (P : JsValue -> Prop)
  (Hundefined : P VUndefined) (Hnull : P VNull)
  (Hbool : forall b, P (VBool b)) (Hnum : forall n, P (VNum n))
  (Hdouble : forall d, P (VDouble d))
  (Hstr : forall s, P (VStr s)) (Hsymbol : forall d, P (VSymbol d))
  (Harr : forall items, Forall P items -> P (VArr items))
  (Hobj : forall props, Forall (fun kv => P (snd kv)) props -> P (VObj props))
  (Herr : forall e, P (VErr e))
  (Hother : forall s j, P (VOther s j)) : forall v, P v :=
  fix go (v : JsValue) : P v :=
    match v with
    | VUndefined => Hundefined
    | VNull => Hnull
    | VBool b => Hbool b
    | VNum n => Hnum n
    | VDouble d => Hdouble d
    | VStr s => Hstr s
    | VSymbol d => Hsymbol d
    | VArr items =>
        Harr items
          ((fix all (l : list JsValue) : Forall P l :=
              match l with
              | [] => List.Forall_nil P
              | x :: l' => List.Forall_cons _ x l' (go x) (all l')
              end) items)
    | VObj props =>
        Hobj props
          ((fix all (l : list (string * JsValue)) : Forall (fun kv => P (snd kv)) l :=
              match l with
              | [] => List.Forall_nil _
              | kv :: l' => List.Forall_cons _ kv l' (go (snd kv)) (all l')
              end) props)
    | VErr e => Herr e
    | VOther s j => Hother s j
    end.

(** ** Reading a run *)

(** Two environments that differ at most in the slot of the trace id. *)
Definition same_settings (e e' : gmap string string) : Prop :=
  forall key, key <> "_X_AMZN_TRACE_ID" -> e' !! key = e !! key.


(** The effect is neither a line on standard error nor the exit of the
    process. *)
Definition stays_alive (ev : Effect) : Prop :=
  match ev with
  | Console_error _ | Process_exit _ => False
  | _ => True
  end.



(** The effect, when it is a POST, announces JSON. *)
Definition json_typed (ev : Effect) : Prop :=
  match ev with
  | Fetch_POST _ content_type _ _ => content_type = "application/json"
  | _ => True
  end.

(** Every POST of the trace goes to the response or to the error endpoint
    of the request id handed out by the latest poll before it; [latest] is
    that id at the start of the trace, if a poll was answered. *)
Fixpoint addressed (api : option string) (latest : option (option string))
  (T : list Effect) : bool :=
  match T with
  | [] => true
  | Fetch_GET url res :: T' => addressed api (polled_id (Fetch_GET url res)) T'
  | Fetch_POST url _ _ _ :: T' =>
      match latest with
      | Some rid =>
          (String.eqb url (response_url api rid) || String.eqb url (error_url api rid))
          && addressed api latest T'
      | None => false
      end
  | _ :: T' => addressed api latest T'
  end.

(** The events with which the handler is invoked, in order. *)
Fixpoint handled (T : list Effect) : list JsValue :=
  match T with
  | [] => []
  | Invoke event _ _ :: T' => event :: handled T'
  | _ :: T' => handled T'
  end.


(** The turn of the host in which the poll response carries the request
    id [id], in front of its other headers. *)
Definition with_request_id (id : string) (c : Cycle) : Cycle :=
  match poll c with
  | Resolved res =>
      mkCycle (Resolved (mkResponse (("Lambda-Runtime-Aws-Request-Id", id)
                                       :: headers res) (json res)))
              (clock c) (delivery c)
  | _ => c
  end.

(** The completion of the poll step, with the request id [rid] in place of
    the one it returns. *)
Definition with_id (rid : option string) (k : Completion Next.t) : Completion Next.t :=
  match k with
  | Done next =>
      Done (Next.mk rid (Next.invokedArn next) (Next.deadlineMs next)
                    (Next.clientContext next) (Next.identity next) (Next.event next))
  | k => k
  end.

(** The effect, when it is a POST, goes to one of the two report endpoints
    of the request id [rid]. *)
Definition reports_to (api rid : option string) (ev : Effect) : Prop :=
  match ev with
  | Fetch_POST url _ _ _ => url = response_url api rid \/ url = error_url api rid
  | _ => True
  end.

(** ** Sample engine, environment, hosts and handlers *)

(** A string between double quotes. *)
Definition quoted (s : string) : string :=
  String DQUOTE (s ++ String DQUOTE "").

Definition deno : Engine :=
  mkEngine (fun n m => Some (n ++ ": " ++ m ++ String LF "    at <anonymous>"))
           (fun _ => "Unexpected token")
           (fun v => match v with
                     | VSymbol _ => "Cannot convert a Symbol value to a string"
                     | _ => "Cannot convert object to primitive value"
                     end).

Definition lambda_env : gmap string string :=
  <["AWS_LAMBDA_RUNTIME_API" := "127.0.0.1:9001"]> ∅.

Definition api_9001 : option string := Some "127.0.0.1:9001".

(** The handler of the end-to-end scenario: [(e) => ({doubled: e.x * 2})],
    throwing the string [oops] on any other event. *)
Definition doubler : Handler := fun ev _ =>
  match ev with
  | VObj [("x", VNum (Int x))] => Resolved (VObj [("doubled", VNum (Int (x * 2)))])
  | _ => Rejected (VStr "oops")
  end.

(** [(e) => e] *)
Definition echo : Handler := fun ev _ => Resolved ev.

Definition up : Delivery := fun _ => Resolved tt.
Definition down : Delivery := fun _ => Rejected (VStr "ECONNREFUSED").

Definition event_x (x : Z) : JsValue := VObj [("x", VNum (Int x))].

Definition invocation (id : string) (body : JsValue) (net : Delivery) : Cycle :=
  mkCycle (Resolved (mkResponse [("Lambda-Runtime-Aws-Request-Id", id)] (Resolved body)))
          1700000000000 net.

Definition sample_base : Next.t :=
  Next.mk (Some "8476a536") None (Int 1700000003000) VUndefined VUndefined VNull.

Definition sample_response : Response :=
  mkResponse [("Lambda-Runtime-Aws-Request-Id", "8476a536")] (Resolved (event_x 21)).

Definition sample_cycle : Cycle := mkCycle (Resolved sample_response) 1700000000000 up.

Definition sample_next : Next.t :=
  Next.mk (Some "8476a536") None (Int 1700000003000) VUndefined VUndefined (event_x 21).

Definition sample_poll : Effect :=
  Fetch_GET "http://127.0.0.1:9001/2018-06-01/runtime/invocation/next"
            (Resolved sample_response).

Definition not_on_lambda : string :=
  "Not running in Lambda (AWS_LAMBDA_RUNTIME_API missing).".

(** The end-to-end scenario: two queued invocations. *)
Definition two_invocations : list Cycle :=
  [invocation "1" (event_x 1) up; invocation "2" (event_x 2) up].

(** A turn whose handler throws while the host refuses every report. *)
Definition refused : Cycle := invocation "1" VNull down.

Definition refused_next : Next.t :=
  Next.mk (Some "1") None (Int 1700000003000) VUndefined VUndefined VNull.

(** A host that drops the response report of request 1 and takes every
    other report. *)
Definition flaky : Delivery := fun url =>
  if String.eqb url (response_url api_9001 (Some "1"))
  then Rejected (VStr "ECONNRESET")
  else Resolved tt.

Definition dropped : Cycle := invocation "1" (event_x 1) flaky.

Definition dropped_next : Next.t :=
  Next.mk (Some "1") None (Int 1700000003000) VUndefined VUndefined (event_x 1).

(** A poll response whose body is not JSON. *)
Definition garbled : Cycle :=
  mkCycle (Resolved (mkResponse [("Lambda-Runtime-Aws-Request-Id", "1")]
                                (Rejected (SyntaxError deno "{"))))
          1700000000000 up.

(** A poll response without any header. *)
Definition anonymous : Cycle :=
  mkCycle (Resolved (mkResponse [] (Resolved (event_x 1)))) 1700000000000 up.

(** A poll response with every header. *)
Definition full_response : Response :=
  mkResponse
    [("Lambda-Runtime-Aws-Request-Id", "7");
     ("Lambda-Runtime-Trace-Id", "Root=1-5759e988");
     ("Lambda-Runtime-Invoked-Function-Arn", "arn:aws:lambda:eu-west-1:1:function:demo");
     ("Lambda-Runtime-Deadline-Ms", "1700000005000");
     ("Lambda-Runtime-Client-Context", "{" ++ quoted "app" ++ ":" ++ quoted "demo" ++ "}");
     ("Lambda-Runtime-Cognito-Identity", "null")]
    (Resolved (event_x 3)).

Definition full_cycle : Cycle := mkCycle (Resolved full_response) 1700000000000 up.

Definition full_next : Next.t :=
  Next.mk (Some "7") (Some "arn:aws:lambda:eu-west-1:1:function:demo")
          (Int 1700000005000) (VObj [("app", VStr "demo")]) VNull (event_x 3).

Definition traced_env : gmap string string :=
  <["_X_AMZN_TRACE_ID" := "Root=1-5759e988"]> lambda_env.

(** A host whose poll endpoint refuses the connection. *)
Definition unreachable : Cycle := mkCycle (Rejected (VStr "ECONNREFUSED")) 0 up.

(** A poll response whose client context is not JSON. *)
Definition bad_client_context : Cycle :=
  mkCycle (Resolved (mkResponse [("Lambda-Runtime-Aws-Request-Id", "1");
                                 ("Lambda-Runtime-Client-Context", "{oops")]
                                (Resolved (event_x 1))))
          1700000000000 up.

(** The BigInt [1n]: [String(1n)] is [1], and [JSON.stringify(1n)] throws
    a [TypeError]. *)
Definition one_n : JsValue :=
  VOther (Returns "1")
         (Throws (VErr (mkError "TypeError" "Do not know how to serialize a BigInt"
                                None))).

(** [() => 1n] *)
Definition counter : Handler := fun _ _ => Resolved one_n.

(** [(e) => { throw e }] *)
Definition rethrow : Handler := fun ev _ => Rejected ev.

(** [() => new Promise(() => {})]: a handler that never settles. *)
Definition stuck : Handler := fun _ _ => Pending.

(** [() => { throw new TypeError("boom") }] *)
Definition thrower : Handler := fun _ _ =>
  Rejected (VErr (mkError "TypeError" "boom" None)).

(** ** Numerals *)

Ltac bool_arith :=
  repeat match goal with
         | |- context [(?a <=? ?b)%nat] => destruct (Nat.leb_spec a b)
         | |- context [(?a <? ?b)%nat] => destruct (Nat.ltb_spec a b)
         | |- context [(?a =? ?b)%nat] => destruct (Nat.eqb_spec a b)
         | H : context [(?a <=? ?b)%nat] |- _ => destruct (Nat.leb_spec a b)
         | H : context [(?a <? ?b)%nat] |- _ => destruct (Nat.ltb_spec a b)
         | H : context [(?a =? ?b)%nat] |- _ => destruct (Nat.eqb_spec a b)
         end;
  simpl in *; try congruence; try lia.

Lemma digit_not_space c : is_digit c = true -> is_trim_space c = false.
Proof. unfold is_digit, is_trim_space. intros H. bool_arith. Qed.

Lemma uint_chars_digits d : Forall (fun c => is_digit c = true) (uint_chars d).
Proof. induction d; simpl; constructor; auto. Qed.

Lemma take_digits_uint_chars d rest :
  starts_with_digit rest = false ->
  take_digits (uint_chars d ++ rest) = (d, rest).
Proof.
  intros Hrest.
  induction d; simpl;
    try (rewrite IHd; reflexivity).
  destruct rest as [|c rest]; simpl in *; [reflexivity|].
  rewrite Hrest. reflexivity.
Qed.

Lemma drop_spaces_id l :
  Forall (fun c => is_trim_space c = false) l -> drop_spaces l = l.
Proof. destruct 1 as [|c l Hc _]; simpl; [reflexivity|]. rewrite Hc. reflexivity. Qed.

Lemma trim_chars_id l :
  Forall (fun c => is_trim_space c = false) l -> trim_chars l = l.
Proof.
  intros H. unfold trim_chars.
  rewrite (drop_spaces_id l H).
  rewrite drop_spaces_id.
  - apply rev_involutive.
  - apply List.Forall_rev. exact H.
Qed.

Lemma Z_chars_no_space z : Forall (fun c => is_trim_space c = false) (Z_chars z).
Proof.
  assert (Hd : forall d, Forall (fun c => is_trim_space c = false) (uint_chars d)).
  { intros d. eapply List.Forall_impl; [|apply uint_chars_digits].
    intros c. apply digit_not_space. }
  destruct z; simpl.
  - constructor; [reflexivity|constructor].
  - apply Hd.
  - constructor; [reflexivity|apply Hd].
Qed.

Lemma Number_digits_uint_chars p :
  Number_digits (uint_chars (Pos.to_uint p)) = Int (Z.pos p).
Proof.
  unfold Number_digits.
  rewrite <- (app_nil_r (uint_chars (Pos.to_uint p))).
  rewrite take_digits_uint_chars by reflexivity.
  pose proof (DecimalPos.Unsigned.to_uint_nonnil p) as Hnil.
  pose proof (DecimalPos.Unsigned.of_to p) as Hof.
  destruct (Pos.to_uint p) eqn:E; try congruence;
    unfold N.of_uint; rewrite Hof; reflexivity.
Qed.

(** [Number(`${n}`)] is [n], for every integer [n]. *)
Lemma Number_number_to_string z : Number (number_to_string (Int z)) = Int z.
Proof.
  unfold Number, number_to_string. simpl number_chars.
  rewrite list_ascii_of_string_of_list_ascii.
  rewrite trim_chars_id by apply Z_chars_no_space.
  destruct z as [|p|p]; simpl Z_chars.
  - reflexivity.
  - pose proof (Number_digits_uint_chars p) as Hp.
    pose proof (uint_chars_digits (Pos.to_uint p)) as Hd.
    destruct (uint_chars (Pos.to_uint p)) as [|c l] eqn:E.
    + discriminate Hp.
    + inversion Hd as [|? ? Hc _]; subst.
      assert (Ascii.eqb c "-" = false /\ Ascii.eqb c "+" = false) as [-> ->].
      { split; apply Ascii.eqb_neq; intros ->; discriminate Hc. }
      exact Hp.
  - simpl. rewrite Number_digits_uint_chars. reflexivity.
Qed.

(** ** Trimming *)

Lemma drop_spaces_clean l : clean_head (drop_spaces l).
Proof.
  induction l as [|c l IH]; simpl; [exact I|].
  destruct (is_trim_space c) eqn:E; [exact IH|exact E].
Qed.

Lemma drop_spaces_suffix l : exists z, l = (z ++ drop_spaces l)%list.
Proof.
  induction l as [|c l [z Hz]]; simpl.
  - exists []. reflexivity.
  - destruct (is_trim_space c).
    + exists (c :: z). simpl. congruence.
    + exists []. reflexivity.
Qed.

Lemma clean_head_fixed l : clean_head l -> drop_spaces l = l.
Proof. destruct l as [|c l]; simpl; [reflexivity|]. intros ->. reflexivity. Qed.

Lemma clean_head_prefix (a b : list ascii) :
  clean_head (a ++ b) -> a <> [] -> clean_head a.
Proof. destruct a; simpl; [congruence|auto]. Qed.

Lemma trim_chars_clean l :
  clean_head (trim_chars l) /\ clean_head (rev (trim_chars l)).
Proof.
  unfold trim_chars. rewrite rev_involutive.
  split; [|apply drop_spaces_clean].
  destruct (drop_spaces_suffix (rev (drop_spaces l))) as [z Hz].
  destruct (drop_spaces (rev (drop_spaces l))) as [|c y] eqn:E; [exact I|].
  apply (clean_head_prefix _ (rev z)); [|simpl; destruct (rev y); discriminate].
  rewrite <- rev_app_distr, <- Hz, rev_involutive.
  apply drop_spaces_clean.
Qed.

Lemma trim_chars_idempotent l : trim_chars (trim_chars l) = trim_chars l.
Proof.
  destruct (trim_chars_clean l) as [H1 H2].
  unfold trim_chars at 1.
  rewrite (clean_head_fixed _ H1), (clean_head_fixed _ H2).
  apply rev_involutive.
Qed.

(** A trimmed string stays the same when it is trimmed again. *)
Lemma trim_idempotent s : trim (trim s) = trim s.
Proof.
  unfold trim. rewrite list_ascii_of_string_of_list_ascii.
  rewrite trim_chars_idempotent. reflexivity.
Qed.

(** ** JSON round trip *)

(** *** String literals *)

Lemma parse_escape_char c l :
  parse_string_body (escape_char c ++ l) = cons_fst c (parse_string_body l).
Proof.
  destruct c as [[] [] [] [] [] [] [] []]; reflexivity.
Qed.

Lemma parse_string_body_quote l rest :
  parse_string_body (flat_map escape_char l ++ DQUOTE :: rest) = Some (l, rest).
Proof.
  induction l as [|c l IH]; [reflexivity|].
  simpl flat_map. rewrite <- app_assoc, parse_escape_char, IH. reflexivity.
Qed.

(** *** Number literals *)

Lemma span_digits_app ds rest :
  Forall (fun c => is_digit c = true) ds ->
  starts_with_digit rest = false ->
  span_digits (ds ++ rest) = (ds, rest).
Proof.
  intros Hds Hrest. induction Hds as [|c ds Hc _ IH]; simpl.
  - destruct rest as [|c rest]; simpl in *; [reflexivity|].
    rewrite Hrest. reflexivity.
  - rewrite Hc, IH. reflexivity.
Qed.

Lemma fold_digits acc l :
  fold_left (fun a c => 10 * a + digit_value c) l acc
  = acc * 10 ^ Z.of_nat (List.length l) + digits_value l.
Proof.
  unfold digits_value. revert acc.
  induction l as [|c l IH]; intros acc.
  - simpl. lia.
  - cbn [fold_left List.length]. rewrite IH, (IH (10 * 0 + digit_value c)).
    rewrite Nat2Z.inj_succ, Z.pow_succ_r by lia. lia.
Qed.

Lemma digits_value_app a b :
  digits_value (a ++ b)
  = digits_value a * 10 ^ Z.of_nat (List.length b) + digits_value b.
Proof.
  unfold digits_value at 1. rewrite fold_left_app.
  rewrite fold_digits. reflexivity.
Qed.

Lemma zeros_digits n : Forall (fun c => is_digit c = true) (zeros n).
Proof. unfold zeros. induction (Z.to_nat n); simpl; constructor; auto. Qed.

Lemma zeros_length n : 0 <= n -> Z.of_nat (List.length (zeros n)) = n.
Proof. intros H. unfold zeros. rewrite repeat_length. lia. Qed.

Lemma digits_value_zeros n : digits_value (zeros n) = 0.
Proof.
  unfold zeros. induction (Z.to_nat n) as [|j IH]; [reflexivity|].
  change (repeat "0"%char (S j)) with (["0"%char] ++ repeat "0"%char j)%list.
  rewrite digits_value_app, IH. reflexivity.
Qed.

Lemma fold_uint_chars d : forall acc,
  fold_left (fun a c => 10 * a + digit_value c) (uint_chars d) (Z.pos acc)
  = Z.pos (Pos.of_uint_acc d acc).
Proof.
  induction d; intros acc; cbn [uint_chars fold_left Pos.of_uint_acc];
    [reflexivity|..]; rewrite <- IHd; f_equal; vm_compute digit_value; lia.
Qed.

Lemma digits_value_uint_chars d :
  digits_value (uint_chars d) = Z.of_N (Pos.of_uint d).
Proof.
  unfold digits_value.
  induction d; cbn [uint_chars fold_left Pos.of_uint]; [reflexivity|exact IHd|..];
    apply (fold_uint_chars d 1%positive) || idtac.
  all: match goal with
       | |- fold_left _ _ ?a = Z.of_N (N.pos (Pos.of_uint_acc _ ?k)) =>
           change a with (Z.pos k); apply fold_uint_chars
       end.
Qed.

Lemma Z_chars_digits z : 0 <= z -> Forall (fun c => is_digit c = true) (Z_chars z).
Proof.
  destruct z; simpl; intros H; [repeat constructor|apply uint_chars_digits|lia].
Qed.

Lemma digits_value_Z_chars z : 0 <= z -> digits_value (Z_chars z) = z.
Proof.
  destruct z as [|p|p]; simpl; intros H; [reflexivity| |lia].
  rewrite digits_value_uint_chars, DecimalPos.Unsigned.of_to. reflexivity.
Qed.

Lemma unorm_leading_zero d d' :
  Decimal.unorm d = Decimal.D0 d' -> d' = Decimal.Nil.
Proof.
  induction d; simpl; intros H; try discriminate; auto.
  injection H as <-. reflexivity.
Qed.

(** The numeral of a positive integer opens with a digit that is not 0. *)
Lemma Z_chars_head s :
  0 < s ->
  exists c l, Z_chars s = c :: l /\ is_digit c = true /\ (code c =? 48)%nat = false.
Proof.
  destruct s as [|p|p]; intros Hs; try lia. simpl.
  pose proof (DecimalPos.Unsigned.to_of (Pos.to_uint p)) as H.
  rewrite DecimalPos.Unsigned.of_to in H. simpl in H.
  pose proof (DecimalPos.Unsigned.to_uint_nonzero p) as Hnz.
  pose proof (DecimalPos.Unsigned.to_uint_nonnil p) as Hnil.
  destruct (Pos.to_uint p) as [|d| | | | | | | | |] eqn:E;
    try congruence; try (simpl; eexists _, _; repeat split; reflexivity).
  symmetry in H. apply unorm_leading_zero in H. subst d.
  exfalso. apply Hnz. reflexivity.
Qed.

Lemma read_fraction_none rest :
  continues_number rest = false -> read_fraction rest = Some ([], rest).
Proof.
  destruct rest as [|c rest]; simpl; [reflexivity|].
  intros H. apply orb_false_iff in H as [H _]. apply orb_false_iff in H as [H _].
  rewrite H. reflexivity.
Qed.

Lemma read_exponent_none rest :
  continues_number rest = false -> read_exponent rest = Some (0, rest).
Proof.
  destruct rest as [|c rest]; simpl; [reflexivity|].
  intros H. apply orb_false_iff in H as [H H69]. apply orb_false_iff in H as [_ H101].
  rewrite H101, H69. reflexivity.
Qed.

Lemma read_exponent_chars x rest :
  starts_with_digit rest = false ->
  read_exponent (exponent_chars x ++ rest) = Some (x, rest).
Proof.
  intros Hrest. unfold exponent_chars.
  assert (Hd : Forall (fun c => is_digit c = true) (Z_chars (Z.abs x)))
    by (apply Z_chars_digits; lia).
  assert (Hne : Z_chars (Z.abs x) <> []).
  { destruct (Z.abs x); simpl; try discriminate.
    pose proof (DecimalPos.Unsigned.to_uint_nonnil p).
    destruct (Pos.to_uint p); simpl; congruence. }
  assert (Hv : digits_value (Z_chars (Z.abs x)) = Z.abs x)
    by (apply digits_value_Z_chars; lia).
  destruct (Z.leb_spec 0 x);
    cbn [app read_exponent code nat_of_ascii]; simpl;
    rewrite (span_digits_app _ _ Hd Hrest);
    destruct (Z_chars (Z.abs x)); try congruence; rewrite Hv; f_equal; f_equal; lia.
Qed.

(** A literal without fraction. *)
Lemma parse_number_plain negative int tail ex rest :
  Forall (fun c => is_digit c = true) int ->
  int <> [] ->
  leading_zero int = false ->
  starts_with_digit tail = false ->
  read_fraction tail = Some ([], tail) ->
  read_exponent tail = Some (ex, rest) ->
  parse_number negative (int ++ tail)
  = Some (number_value negative (digits_value int) ex, rest).
Proof.
  intros Hd Hne Hz Htail Hf He. unfold parse_number.
  rewrite (span_digits_app _ _ Hd Htail).
  destruct int as [|c int]; [congruence|].
  rewrite Hz, Hf, He, app_nil_r. simpl List.length. rewrite Z.sub_0_r. reflexivity.
Qed.

(** A literal with a fraction. *)
Lemma parse_number_point negative int fd tail ex rest :
  Forall (fun c => is_digit c = true) int ->
  int <> [] ->
  leading_zero int = false ->
  Forall (fun c => is_digit c = true) fd ->
  fd <> [] ->
  starts_with_digit tail = false ->
  read_exponent tail = Some (ex, rest) ->
  parse_number negative (int ++ "."%char :: fd ++ tail)
  = Some (number_value negative (digits_value (int ++ fd))
                       (ex - Z.of_nat (List.length fd)), rest).
Proof.
  intros Hd Hne Hz Hfd Hfne Htail He. unfold parse_number.
  rewrite (span_digits_app _ _ Hd) by reflexivity.
  destruct int as [|c int]; [congruence|].
  rewrite Hz. cbn [read_fraction code nat_of_ascii]. simpl Nat.eqb. cbv iota.
  rewrite (span_digits_app _ _ Hfd Htail).
  destruct fd as [|f fd]; [congruence|].
  rewrite He. reflexivity.
Qed.

Lemma decimal_magnitude_ratio s p s' p' :
  ratio s p = ratio s' p' -> decimal_magnitude s p = decimal_magnitude s' p'.
Proof. unfold decimal_magnitude. intros ->. reflexivity. Qed.

Lemma leading_zero_head c l l' :
  (code c =? 48)%nat = false -> leading_zero ((c :: l) ++ l') = false.
Proof. intros H. destruct l, l'; simpl; auto. Qed.

Lemma decimal_digits s :
  0 < s ->
  Forall (fun c => is_digit c = true) (Z_chars s)
  /\ digits_value (Z_chars s) = s
  /\ exists c l, Z_chars s = c :: l /\ is_digit c = true /\ (code c =? 48)%nat = false.
Proof.
  intros Hs.
  split; [apply Z_chars_digits; lia|].
  split; [apply digits_value_Z_chars; lia|].
  apply Z_chars_head, Hs.
Qed.

Section Decimal.

Variable negative : bool.
Variables s p : Z.
Variable rest : list ascii.
Hypothesis Hs : 0 < s.
Hypothesis Hrest : delimited rest.

Let ds := Z_chars s.
Let k := Z.of_nat (List.length ds).
Let n := p + k.
Let read := Some (to_value negative (decimal_magnitude s p), rest).

(** The digits followed by zeros. *)
Lemma parse_digits_zeros :
  k <= n -> parse_number negative ((ds ++ zeros (n - k)) ++ rest) = read.
Proof using Hs Hrest.
  intros Hkn. destruct Hrest as [Hd Hcont].
  destruct (decimal_digits s Hs) as (Hall & Hval & c & l & Hds & Hc & Hc0).
  fold ds in Hall, Hval, Hds.
  rewrite (parse_number_plain negative (ds ++ zeros (n - k)) rest 0 rest).
  - unfold read, number_value. f_equal. f_equal. f_equal.
    apply decimal_magnitude_ratio.
    rewrite digits_value_app, digits_value_zeros, Hval, zeros_length by lia.
    unfold ratio. replace (n - k) with p by (unfold n; lia).
    destruct (Z.leb_spec 0 p); [|unfold n in Hkn; lia]. simpl. f_equal. lia.
  - apply List.Forall_app. split; [exact Hall|apply zeros_digits].
  - rewrite Hds. discriminate.
  - rewrite Hds. apply leading_zero_head, Hc0.
  - exact Hd.
  - apply read_fraction_none, Hcont.
  - apply read_exponent_none, Hcont.
Qed.

(** The digits around a point. *)
Lemma parse_digits_point :
  0 < n -> n < k ->
  parse_number negative
    ((firstn (Z.to_nat n) ds ++ "."%char :: skipn (Z.to_nat n) ds) ++ rest) = read.
Proof using Hs Hrest.
  intros H0n Hnk. destruct Hrest as [Hd Hcont].
  destruct (decimal_digits s Hs) as (Hall & Hval & c & l & Hds & Hc & Hc0).
  fold ds in Hall, Hval, Hds.
  assert (Hfirst : firstn (Z.to_nat n) ds = c :: firstn (Z.to_nat n - 1) l).
  { rewrite Hds. destruct (Z.to_nat n) eqn:E; [lia|]. simpl.
    rewrite Nat.sub_0_r. reflexivity. }
  pose proof (firstn_skipn (Z.to_nat n) ds) as Hsplit.
  assert (Hparts : Forall (fun c => is_digit c = true) (firstn (Z.to_nat n) ds)
                   /\ Forall (fun c => is_digit c = true) (skipn (Z.to_nat n) ds)).
  { rewrite <- Hsplit in Hall. apply List.Forall_app in Hall. exact Hall. }
  destruct Hparts as [Hint Hfd].
  rewrite <- app_assoc, <- app_comm_cons.
  rewrite (parse_number_point negative _ _ rest 0 rest).
  - unfold read, number_value. f_equal. f_equal. f_equal.
    apply decimal_magnitude_ratio. rewrite Hsplit, Hval. f_equal.
    rewrite length_skipn. unfold n, k in *. lia.
  - exact Hint.
  - rewrite Hfirst. discriminate.
  - rewrite Hfirst.
    pose proof (leading_zero_head c (firstn (Z.to_nat n - 1) l) [] Hc0) as Hz.
    rewrite app_nil_r in Hz. exact Hz.
  - exact Hfd.
  - intros Hnil. apply (f_equal (@List.length ascii)) in Hnil.
    rewrite length_skipn in Hnil. simpl in Hnil. unfold k in Hnk. lia.
  - exact Hd.
  - apply read_exponent_none, Hcont.
Qed.

(** The digits behind [0.] and zeros. *)
Lemma parse_zeros_digits :
  n <= 0 ->
  parse_number negative (("0"%char :: "."%char :: zeros (- n) ++ ds) ++ rest) = read.
Proof using Hs Hrest.
  intros Hn0. destruct Hrest as [Hd Hcont].
  destruct (decimal_digits s Hs) as (Hall & Hval & c & l & Hds & Hc & Hc0).
  fold ds in Hall, Hval, Hds.
  replace (("0"%char :: "."%char :: zeros (- n) ++ ds) ++ rest)%list
    with (["0"%char] ++ "."%char :: (zeros (- n) ++ ds) ++ rest)%list
    by (simpl; rewrite <- app_assoc; reflexivity).
  rewrite (parse_number_point negative _ (zeros (- n) ++ ds) rest 0 rest).
  - unfold read, number_value. f_equal. f_equal. f_equal.
    apply decimal_magnitude_ratio.
    rewrite !digits_value_app, digits_value_zeros, Hval. simpl digits_value.
    rewrite length_app. rewrite Nat2Z.inj_add, zeros_length by lia.
    f_equal; unfold n, k in *; lia.
  - repeat constructor.
  - discriminate.
  - reflexivity.
  - apply List.Forall_app. split; [apply zeros_digits|exact Hall].
  - rewrite Hds. destruct (zeros (- n)); discriminate.
  - exact Hd.
  - apply read_exponent_none, Hcont.
Qed.

(** One digit, the others behind a point, and the exponent. *)
Lemma parse_digits_exponent :
  parse_number negative
    (match ds with
     | [] => []
     | [d] => d :: exponent_chars (n - 1)
     | d :: more => (d :: "."%char :: more ++ exponent_chars (n - 1))%list
     end ++ rest) = read.
Proof using Hs Hrest.
  destruct Hrest as [Hd Hcont].
  destruct (decimal_digits s Hs) as (Hall & Hval & c & l & Hds & Hc & Hc0).
  fold ds in Hall, Hval, Hds.
  unfold read. subst n k. rewrite Hds in *. clear Hds. destruct l as [|d l].
  - etransitivity;
      [apply (parse_number_plain negative [c]
                (exponent_chars (p + 1 - 1) ++ rest) (p + 1 - 1) rest)|].
    + exact Hall.
    + discriminate.
    + reflexivity.
    + reflexivity.
    + reflexivity.
    + apply read_exponent_chars, Hd.
    + unfold number_value. f_equal. f_equal. f_equal.
      apply decimal_magnitude_ratio. rewrite Hval. f_equal. lia.
  - set (x := p + Z.of_nat (List.length (c :: d :: l)) - 1).
    replace ((c :: "."%char :: (d :: l) ++ exponent_chars x) ++ rest)%list
      with ([c] ++ "."%char :: (d :: l) ++ exponent_chars x ++ rest)%list
      by (simpl; rewrite <- app_assoc; reflexivity).
    etransitivity;
      [apply (parse_number_point negative [c] (d :: l)
                (exponent_chars x ++ rest) x rest)|].
    + constructor; [exact Hc|constructor].
    + discriminate.
    + reflexivity.
    + inversion Hall; assumption.
    + discriminate.
    + reflexivity.
    + apply read_exponent_chars, Hd.
    + unfold number_value. f_equal. f_equal. f_equal.
      apply decimal_magnitude_ratio.
      change ([c] ++ d :: l)%list with (c :: d :: l). rewrite Hval. f_equal.
      subst x. simpl List.length. lia.
Qed.

(** The text that [Number::toString] writes for the decimal [s * 10^p]
    reads back as the number denoted by that decimal. *)
Lemma parse_number_decimal :
  parse_number negative (decimal_chars s p ++ rest) = read.
Proof using Hs Hrest.
  unfold decimal_chars. fold ds k n.
  destruct (Z.leb_spec k n), (Z.leb_spec n 21), (Z.ltb_spec 0 n),
    (Z.ltb_spec (-6) n), (Z.leb_spec n 0); cbn [andb]; try lia;
    first [ apply parse_digits_zeros; lia
          | apply parse_digits_point; lia
          | apply parse_zeros_digits; lia
          | apply parse_digits_exponent ].
Qed.

End Decimal.

Lemma magnitude_eqb_eq x y : magnitude_eqb x y = true -> x = y.
Proof.
  destruct x, y; simpl; try discriminate; intros H.
  - apply Z.eqb_eq in H. congruence.
  - apply andb_true_iff in H as [H1 H2].
    apply Z.eqb_eq in H1, H2. congruence.
  - reflexivity.
Qed.

Lemma reads_back_spec x c :
  reads_back x c = true -> 0 < fst c /\ decimal_magnitude (fst c) (snd c) = x.
Proof.
  unfold reads_back. intros H. apply andb_true_iff in H as [H1 H2].
  split; [apply Z.ltb_lt, H1|apply magnitude_eqb_eq, H2].
Qed.

Lemma search_reads_back x xn xd n tries :
  forall k c, search x xn xd n k tries = Some c -> reads_back x c = true.
Proof.
  induction tries as [|tries IH]; intros k c; simpl; [discriminate|].
  destruct (List.find (reads_back x) (candidates xn xd n k)) as [c'|] eqn:E.
  - intros [= <-]. apply find_some in E. apply E.
  - apply IH.
Qed.

(** The shortest decimal of a double denotes the double. *)
Lemma shortest_reads_back x :
  reads_back x (expansion x) = true -> reads_back x (shortest x) = true.
Proof.
  intros Hx. unfold shortest. destruct (magnitude_ratio x) as [xn xd].
  destruct (search x xn xd (decimal_exponent xn xd) 1 17) as [c|] eqn:E.
  - eapply search_reads_back, E.
  - exact Hx.
Qed.

Lemma decimal_magnitude_integer z :
  0 <= z -> z <= 9007199254740991 -> decimal_magnitude z 0 = Whole z.
Proof.
  intros H0 Hz. unfold decimal_magnitude, ratio. simpl.
  rewrite Z.mul_1_r.
  destruct (Z.eqb_spec z 0) as [->|Hne]; [reflexivity|].
  destruct (Z.leb_spec z 9007199254740991); [reflexivity|lia].
Qed.

Lemma parse_number_head negative l r :
  parse_number negative l = Some r ->
  exists c l', l = c :: l' /\ is_digit c = true.
Proof.
  unfold parse_number. destruct l as [|c l]; simpl; [discriminate|].
  destruct (is_digit c) eqn:E; [eauto|discriminate].
Qed.

(** The text of a positive number reads back as the number. *)
Lemma parse_magnitude_chars negative x rest :
  readable x = true ->
  delimited rest ->
  parse_number negative (magnitude_chars x ++ rest) = Some (to_value negative x, rest).
Proof.
  intros Hx Hrest.
  assert (Hshort : reads_back x (expansion x) = true ->
            forall s p, shortest x = (s, p) ->
            parse_number negative (decimal_chars s p ++ rest)
            = Some (to_value negative x, rest)).
  { intros Hback s p Hsp. apply shortest_reads_back in Hback.
    rewrite Hsp in Hback. apply reads_back_spec in Hback as [Hs Hd].
    simpl in Hs, Hd. rewrite <- Hd. apply parse_number_decimal; assumption. }
  destruct x as [z|m e|]; simpl in Hx; [| |discriminate].
  - unfold magnitude_chars.
    destruct (Z.leb_spec z 9007199254740991) as [Hz|Hz].
    + assert (H0 : 0 <= z).
      { apply orb_true_iff in Hx as [Hx|Hx].
        - apply andb_true_iff in Hx as [Hx _]. apply Z.leb_le, Hx.
        - apply reads_back_spec in Hx as [Hx _]. simpl in Hx. lia. }
      rewrite <- (decimal_magnitude_integer z H0 Hz).
      destruct Hrest as [Hd Hc].
      rewrite (parse_number_plain negative (Z_chars z) rest 0 rest).
      * rewrite digits_value_Z_chars by exact H0. reflexivity.
      * apply Z_chars_digits, H0.
      * destruct z as [|q|q]; simpl; [discriminate| |lia].
        pose proof (DecimalPos.Unsigned.to_uint_nonnil q).
        destruct (Pos.to_uint q); simpl; congruence.
      * destruct (Z.eqb_spec z 0) as [->|Hne]; [reflexivity|].
        destruct (Z_chars_head z ltac:(lia)) as (c & l & -> & _ & Hc0).
        apply (leading_zero_head c l []) in Hc0. rewrite app_nil_r in Hc0.
        exact Hc0.
      * exact Hd.
      * apply read_fraction_none, Hc.
      * apply read_exponent_none, Hc.
    + destruct (shortest (Whole z)) as [s p] eqn:Hsp.
      rewrite andb_false_r in Hx. apply (Hshort Hx s p eq_refl).
  - unfold magnitude_chars. destruct (shortest (Fractional m e)) as [s p] eqn:Hsp.
    apply (Hshort Hx s p eq_refl).
Qed.

Lemma magnitude_chars_head x :
  readable x = true ->
  exists c l, magnitude_chars x = c :: l /\ is_digit c = true.
Proof.
  intros Hx.
  pose proof (parse_magnitude_chars false x [] Hx ltac:(split; reflexivity)) as H.
  rewrite app_nil_r in H. eapply parse_number_head, H.
Qed.

Lemma parse_value_digit fuel c l :
  is_digit c = true ->
  parse_value (S fuel) (c :: l) = parse_number false (c :: l).
Proof.
  intros H.
  destruct c as [[] [] [] [] [] [] [] []]; vm_compute in H; try discriminate H;
    reflexivity.
Qed.

Lemma parse_value_signed fuel negative x rest :
  readable x = true ->
  delimited rest ->
  parse_value (S fuel) (signed negative (magnitude_chars x) ++ rest)
  = Some (to_value negative x, rest).
Proof.
  intros Hx Hrest.
  pose proof (parse_magnitude_chars negative x rest Hx Hrest) as H.
  destruct negative; simpl signed.
  - exact H.
  - destruct (parse_number_head _ _ _ H) as (c & l & Hcl & Hc).
    rewrite Hcl in *. rewrite parse_value_digit by exact Hc. exact H.
Qed.

Lemma magnitude_eqb_refl x : magnitude_eqb x x = true.
Proof. destruct x; simpl; rewrite ?Z.eqb_refl; reflexivity. Qed.

Lemma integer_readable z :
  is_double_integer z = true ->
  Z_magnitude z = Whole (Z.abs z) /\ readable (Whole (Z.abs z)) = true.
Proof.
  unfold is_double_integer. intros H. apply magnitude_eqb_eq in H.
  split; [exact H|]. unfold readable, reads_back, expansion. cbn [fst snd].
  fold (Z_magnitude z). rewrite H, magnitude_eqb_refl, andb_true_r.
  destruct (Z.ltb_spec 0 (Z.abs z)); [apply orb_true_r|].
  replace (Z.abs z) with 0 by lia. reflexivity.
Qed.

(** The text of an integer that is a double reads back as the integer. *)
Lemma parse_value_integer fuel z rest :
  is_double_integer z = true ->
  delimited rest ->
  parse_value (S fuel) (Number_toString (Int z) ++ rest) = Some (VNum (Int z), rest).
Proof.
  intros Hz Hrest. destruct (integer_readable z Hz) as [Hm Hr].
  unfold Number_toString. rewrite Hm.
  rewrite (parse_value_signed fuel _ _ rest Hr Hrest).
  cbn [to_value]. do 4 f_equal. destruct (Z.ltb_spec z 0); lia.
Qed.

(** The text of a double with a fraction reads back as the double. *)
Lemma parse_value_fraction fuel negative m e rest :
  is_double_fraction m e = true ->
  delimited rest ->
  parse_value (S fuel) (double_toString (Fraction negative m e) ++ rest)
  = Some (VDouble (Fraction negative m e), rest).
Proof.
  intros Hx Hrest. unfold double_toString.
  apply (parse_value_signed fuel negative (Fractional m e) rest Hx Hrest).
Qed.

(** *** The first character of a value *)

Lemma value_start_digit c : is_digit c = true -> value_start c = true.
Proof. unfold value_start. intros ->. rewrite orb_true_r. reflexivity. Qed.

Lemma value_start_facts c :
  value_start c = true ->
  is_json_space c = false
  /\ (code c =? 93)%nat = false /\ (code c =? 125)%nat = false.
Proof.
  intros H.
  destruct c as [[] [] [] [] [] [] [] []]; vm_compute in H; try discriminate H;
    repeat split.
Qed.

Lemma signed_start negative x :
  readable x = true ->
  exists c t, signed negative (magnitude_chars x) = c :: t /\ value_start c = true.
Proof.
  intros Hx. destruct negative; simpl.
  - eexists _, _. split; reflexivity.
  - destruct (magnitude_chars_head x Hx) as (c & l & -> & Hc).
    eexists _, _. split; [reflexivity|]. apply value_start_digit, Hc.
Qed.

(** *** The text of a JSON value *)

Lemma collect_returns {A B : Type} (f : A -> Result JsValue B) (g : A -> B) l :
  Forall (fun x => f x = Returns (g x)) l -> collect f l = Returns (map g l).
Proof.
  induction 1 as [|x l Hx _ IH]; simpl; [reflexivity|].
  rewrite Hx, IH. reflexivity.
Qed.

Lemma ser_returned v t : stringify_chars v = Returns (Some t) -> ser v = t.
Proof. unfold ser. intros ->. reflexivity. Qed.

Lemma stringify_array items :
  Forall (fun x => stringify_chars x = Returns (Some (ser x))) items ->
  stringify_chars (VArr items)
  = Returns (Some ("["%char :: join_chars (map ser items) ++ ["]"%char])).
Proof.
  intros H. cbn [stringify_chars].
  rewrite (collect_returns _ ser); [reflexivity|].
  eapply List.Forall_impl; [|exact H]. intros x ->. reflexivity.
Qed.

Lemma concat_singletons {A B : Type} (f : A -> B) l :
  concat (map (fun x => [f x]) l) = map f l.
Proof. induction l as [|x l IH]; simpl; congruence. Qed.

Lemma stringify_object props :
  Forall (fun kv => stringify_chars (snd kv) = Returns (Some (ser (snd kv)))) props ->
  stringify_chars (VObj props)
  = Returns (Some ("{"%char :: join_chars (map member props) ++ ["}"%char])).
Proof.
  intros H. cbn [stringify_chars].
  rewrite (collect_returns _ (fun kv => [member kv])).
  - rewrite concat_singletons. reflexivity.
  - eapply List.Forall_impl; [|exact H]. intros kv ->. reflexivity.
Qed.

(** [JSON.stringify] returns on a JSON value, with a text. *)
Lemma stringify_chars_ser v :
  json_value v = true -> stringify_chars v = Returns (Some (ser v)).
Proof.
  induction v as [| |b|n|d|s|sym|items IH|props IH|e|s j] using JsValue_nested_ind;
    simpl json_value; try discriminate; intros Hj.
  - reflexivity.
  - destruct b; reflexivity.
  - destruct n; [discriminate|reflexivity].
  - destruct d; [discriminate|reflexivity].
  - reflexivity.
  - assert (H : Forall (fun x => stringify_chars x = Returns (Some (ser x))) items).
    { apply List.Forall_forall. intros x Hx.
      rewrite List.Forall_forall in IH. rewrite forallb_forall in Hj. auto. }
    pose proof (stringify_array items H) as Hs.
    rewrite (ser_returned _ _ Hs). exact Hs.
  - apply andb_true_iff in Hj as [_ Hj].
    assert (H : Forall (fun kv => stringify_chars (snd kv)
                                  = Returns (Some (ser (snd kv)))) props).
    { apply List.Forall_forall. intros x Hx.
      rewrite List.Forall_forall in IH. rewrite forallb_forall in Hj. auto. }
    pose proof (stringify_object props H) as Hs.
    rewrite (ser_returned _ _ Hs). exact Hs.
Qed.

Lemma ser_array items :
  forallb json_value items = true ->
  ser (VArr items) = ("["%char :: join_chars (map ser items) ++ ["]"%char])%list.
Proof.
  intros Hj. apply ser_returned, stringify_array.
  apply List.Forall_forall. intros x Hx. apply stringify_chars_ser.
  rewrite forallb_forall in Hj. auto.
Qed.

Lemma ser_object props :
  forallb (fun kv => json_value (snd kv)) props = true ->
  ser (VObj props) = ("{"%char :: join_chars (map member props) ++ ["}"%char])%list.
Proof.
  intros Hj. apply ser_returned, stringify_object.
  apply List.Forall_forall. intros x Hx. apply stringify_chars_ser.
  rewrite forallb_forall in Hj. auto.
Qed.

Lemma ser_start v :
  json_value v = true ->
  exists c t, ser v = c :: t /\ value_start c = true.
Proof.
  intros Hj.
  destruct v as [| |[]|[|z]|[neg|neg m e]|s|sym|items|props|e|s j];
    simpl in Hj; try discriminate;
    try (eexists _, _; split; reflexivity).
  - change (ser (VNum (Int z))) with (Number_toString (Int z)).
    destruct (integer_readable z Hj) as [Hm Hr].
    unfold Number_toString. rewrite Hm. apply signed_start, Hr.
  - change (ser (VDouble (Fraction neg m e)))
      with (signed neg (magnitude_chars (Fractional m e))).
    apply signed_start, Hj.
  - rewrite ser_array by exact Hj. eexists _, _. split; reflexivity.
  - apply andb_true_iff in Hj as [_ Hj].
    rewrite ser_object by exact Hj. eexists _, _. split; reflexivity.
Qed.


Lemma skip_ws_start c l : is_json_space c = false -> skip_ws (c :: l) = c :: l.
Proof. simpl. intros ->. reflexivity. Qed.

(** *** Objects *)

Lemma distinct_middle (l1 l2 : list string) k :
  distinct (l1 ++ k :: l2) = true -> existsb (String.eqb k) l1 = false.
Proof.
  induction l1 as [|a l1 IH]; simpl; [reflexivity|].
  intros H. apply andb_true_iff in H as [Ha Hd].
  rewrite (IH Hd), orb_false_r.
  apply negb_true_iff in Ha. rewrite existsb_app in Ha.
  apply orb_false_iff in Ha as [_ Ha]. simpl in Ha.
  apply orb_false_iff in Ha as [Ha _].
  rewrite String.eqb_sym. exact Ha.
Qed.

Lemma obj_set_fresh k v props :
  existsb (String.eqb k) (map fst props) = false ->
  obj_set k v props = (props ++ [(k, v)])%list.
Proof.
  induction props as [|[k' v'] props IH]; simpl; [reflexivity|].
  intros H. apply orb_false_iff in H as [-> H]. rewrite (IH H). reflexivity.
Qed.

Lemma build_object_acc members acc :
  distinct (map fst (acc ++ members)) = true ->
  fold_left (fun a kv => obj_set (fst kv) (snd kv) a) members acc
  = (acc ++ members)%list.
Proof.
  revert acc. induction members as [|[k v] members IH]; intros acc H; simpl.
  - symmetry. apply app_nil_r.
  - rewrite obj_set_fresh.
    + rewrite IH; rewrite <- app_assoc; [reflexivity|exact H].
    + rewrite map_app in H. simpl in H. apply distinct_middle in H. exact H.
Qed.

Lemma build_object_distinct props :
  distinct (map fst props) = true -> build_object props = props.
Proof. intros H. apply (build_object_acc props []). exact H. Qed.

(** *** Values *)

Lemma delimited_cons c rest :
  is_digit c = false ->
  ((code c =? 46)%nat || (code c =? 101)%nat || (code c =? 69)%nat) = false ->
  delimited (c :: rest).
Proof. intros H1 H2. split; assumption. Qed.

Lemma ser_nonempty v : json_value v = true -> (0 < length (ser v))%nat.
Proof.
  intros H. destruct (ser_start v H) as (c & t & -> & _). simpl. lia.
Qed.

Lemma parse_elements_join items :
  items <> [] ->
  Forall (fun x => json_value x = true /\ parses x) items ->
  forall fuel rest,
    (length (join_chars (map ser items)) + 1 < fuel)%nat ->
    parse_elements fuel (join_chars (map ser items) ++ "]"%char :: rest)
    = Some (items, rest).
Proof.
  intros Hne Hall. induction Hall as [|x l [Hjx Hx] Hl IH]; [congruence|].
  clear Hne. intros fuel rest Hfuel.
  destruct fuel as [|fuel]; [lia|].
  destruct l as [|y l].
  - simpl in *. rewrite Hx; [reflexivity| |lia].
    apply delimited_cons; reflexivity.
  - change (join_chars (map ser (x :: y :: l)))
      with (ser x ++ ","%char :: join_chars (map ser (y :: l)))%list in *.
    rewrite length_app in Hfuel. simpl length in Hfuel.
    pose proof (ser_nonempty x Hjx) as Hpos.
    rewrite <- app_assoc, <- app_comm_cons.
    cbn [parse_elements]. rewrite Hx; [| |lia].
    + cbn [skip_ws is_json_space code]. simpl.
      rewrite IH; [reflexivity|discriminate|]. simpl. lia.
    + apply delimited_cons; reflexivity.
Qed.

Lemma parse_members_join props :
  props <> [] ->
  Forall (fun kv => json_value (snd kv) = true /\ parses (snd kv)) props ->
  forall fuel rest,
    (length (join_chars (map member props)) + 1 < fuel)%nat ->
    parse_members fuel (join_chars (map member props) ++ "}"%char :: rest)
    = Some (props, rest).
Proof.
  intros Hne Hall. induction Hall as [|[k v] l [Hjv Hv] Hl IH]; [congruence|].
  clear Hne. intros fuel rest Hfuel.
  destruct fuel as [|fuel]; [lia|].
  simpl snd in *.
  assert (Hkey : forall tail,
            parse_members (S fuel) (member (k, v) ++ tail)
            = match parse_value fuel (ser v ++ tail) with
              | Some (v', rest') =>
                  match skip_ws rest' with
                  | c3 :: rest'' =>
                      if (code c3 =? 44)%nat then
                        cons_fst (k, v') (parse_members fuel rest'')
                      else if (code c3 =? 125)%nat then Some ([(k, v')], rest'')
                      else None
                  | [] => None
                  end
              | None => None
              end).
  { intros tail. unfold member, quote, quote_chars. simpl fst. simpl snd.
    rewrite <- !app_assoc, <- !app_comm_cons.
    cbn [parse_members skip_ws is_json_space code]. simpl.
    rewrite <- app_assoc. simpl.
    rewrite parse_string_body_quote. simpl.
    rewrite string_of_list_ascii_of_string. reflexivity. }
  assert (length (ser v) < length (member (k, v)))%nat as Hlen.
  { unfold member. cbn [fst snd]. rewrite length_app, length_cons. lia. }
  destruct l as [|kv l].
  - simpl join_chars in *. rewrite Hkey.
    rewrite Hv; [reflexivity| |].
    + apply delimited_cons; reflexivity.
    + lia.
  - change (join_chars (map member ((k, v) :: kv :: l)))
      with (member (k, v) ++ ","%char :: join_chars (map member (kv :: l)))%list in *.
    rewrite length_app, length_cons in Hfuel.
    rewrite <- app_assoc, <- app_comm_cons. rewrite Hkey.
    rewrite Hv; [| |lia].
    + simpl. rewrite IH; [reflexivity|discriminate|].
      pose proof (ser_nonempty v Hjv). lia.
    + apply delimited_cons; reflexivity.
Qed.

Lemma parse_value_array fuel l :
  parse_value (S fuel) ("["%char :: l)
  = match skip_ws l with
    | c2 :: l2 =>
        if (code c2 =? 93)%nat then Some (VArr [], l2)
        else match parse_elements fuel l with
             | Some (items, rest) => Some (VArr items, rest)
             | None => None
             end
    | [] => None
    end.
Proof. reflexivity. Qed.

Lemma parse_value_object fuel l :
  parse_value (S fuel) ("{"%char :: l)
  = match skip_ws l with
    | c2 :: l2 =>
        if (code c2 =? 125)%nat then Some (VObj [], l2)
        else match parse_members fuel l with
             | Some (members, rest) => Some (VObj (build_object members), rest)
             | None => None
             end
    | [] => None
    end.
Proof. reflexivity. Qed.

Lemma json_value_parses v : json_value v = true -> parses v.
Proof.
  induction v as [| |b|n|d|s|sym|items IH|props IH|e|s j] using JsValue_nested_ind;
    simpl json_value; try discriminate; intros Hj fuel rest Hrest Hfuel;
    (destruct fuel as [|fuel]; [lia|]).
  - reflexivity.
  - destruct b; reflexivity.
  - destruct n as [|z]; [discriminate|].
    apply parse_value_integer; assumption.
  - destruct d as [neg|neg m e]; [discriminate|].
    apply parse_value_fraction; assumption.
  - change (ser (VStr s)) with (quote s). unfold quote, quote_chars.
    rewrite <- app_comm_cons, <- app_assoc.
    cbn [parse_value skip_ws is_json_space code]. simpl.
    rewrite parse_string_body_quote.
    rewrite string_of_list_ascii_of_string. reflexivity.
  - rewrite (ser_array items Hj) in *.
    rewrite <- app_comm_cons, <- app_assoc. simpl app.
    simpl length in Hfuel. rewrite length_app in Hfuel. simpl in Hfuel.
    destruct items as [|x items].
    + reflexivity.
    + assert (Hall : Forall (fun y => json_value y = true /\ parses y) (x :: items)).
      { apply List.Forall_forall. intros y Hy.
        rewrite List.Forall_forall in IH. rewrite forallb_forall in Hj.
        split; auto. }
      pose proof (parse_elements_join (x :: items) ltac:(discriminate) Hall
                    fuel rest ltac:(lia)) as Hp.
      assert (Hstart : exists c t,
                 (join_chars (map ser (x :: items)) ++ "]"%char :: rest)%list = c :: t
                 /\ value_start c = true).
      { inversion Hall as [|? ? [Hjx _] _]; subst.
        destruct (ser_start x Hjx) as (c & t & Hc & Hs).
        destruct items; simpl; rewrite Hc; simpl; eauto. }
      destruct Hstart as (c & t & Hc & Hs).
      destruct (value_start_facts c Hs) as (Hws & H93 & _).
      rewrite Hc in *.
      rewrite parse_value_array, (skip_ws_start c t Hws), H93, Hp. reflexivity.
  - apply andb_true_iff in Hj as [Hkeys Hj].
    rewrite (ser_object props Hj) in *.
    rewrite <- app_comm_cons, <- app_assoc. simpl app.
    simpl length in Hfuel. rewrite length_app in Hfuel. simpl in Hfuel.
    destruct props as [|[k v] props].
    + reflexivity.
    + assert (Hall : Forall (fun kv => json_value (snd kv) = true /\ parses (snd kv))
                            ((k, v) :: props)).
      { apply List.Forall_forall. intros y Hy.
        rewrite List.Forall_forall in IH. rewrite forallb_forall in Hj.
        split; auto. }
      pose proof (parse_members_join ((k, v) :: props) ltac:(discriminate) Hall
                    fuel rest ltac:(lia)) as Hp.
      assert (Hstart : exists t,
                 (join_chars (map member ((k, v) :: props)) ++ "}"%char :: rest)%list
                 = DQUOTE :: t).
      { destruct props; simpl; eauto. }
      destruct Hstart as (t & Hc).
      rewrite Hc in *.
      rewrite parse_value_object, skip_ws_start by reflexivity.
      change (code DQUOTE =? 125)%nat with false. cbv iota.
      rewrite Hp, build_object_distinct by exact Hkeys. reflexivity.
Qed.

(** An integer up to 2^53 is a JSON value. *)
Lemma safe_integer_json z : safe_integer z = true -> json_value (VNum (Int z)) = true.
Proof.
  unfold safe_integer. intros H. apply andb_true_iff in H as [H1 H2].
  apply Z.leb_le in H1, H2. simpl. unfold is_double_integer, Z_magnitude.
  rewrite decimal_magnitude_integer by lia. apply magnitude_eqb_refl.
Qed.

(** [JSON.parse(JSON.stringify(v))] is [v], for every JSON value [v]. *)
Lemma JSON_roundtrip v :
  json_value v = true ->
  exists text, JSON_stringify v = Returns (Some text) /\ JSON_parse text = Some v.
Proof.
  intros Hj. exists (string_of_list_ascii (ser v)). split.
  - unfold JSON_stringify. rewrite stringify_chars_ser by exact Hj. reflexivity.
  - unfold JSON_parse, parse_chars. rewrite list_ascii_of_string_of_list_ascii.
    pose proof (json_value_parses v Hj (S (S (length (ser v)))) []) as H.
    rewrite app_nil_r in H. rewrite H; [reflexivity|split; reflexivity|lia].
Qed.


(** ** The error payload on the wire *)

Lemma payload_is_json p : json_value (payload_value p) = true.
Proof.
  unfold payload_value. cbn [json_value map fst snd forallb distinct existsb].
  assert (H : forallb json_value (map VStr (stackTrace p)) = true).
  { induction (stackTrace p) as [|l ls IH]; [reflexivity|exact IH]. }
  rewrite H. reflexivity.
Qed.

(** The body of an error report is the JSON text of the payload, which
    reads back as the payload. *)
Lemma stringify_payload p :
  JSON_stringify (payload_value p) = Returns (Some (payload_text p)).
Proof.
  unfold JSON_stringify.
  rewrite stringify_chars_ser by apply payload_is_json. reflexivity.
Qed.

Lemma post_body_payload p :
  post_body (payload_value p) = Returns (Some (payload_text p)).
Proof. apply stringify_payload. Qed.

Lemma payload_text_parses p : JSON_parse (payload_text p) = Some (payload_value p).
Proof.
  destruct (JSON_roundtrip _ (payload_is_json p)) as (text & Hs & Hp).
  unfold JSON_stringify in Hs.
  rewrite stringify_chars_ser in Hs by apply payload_is_json.
  injection Hs as <-. exact Hp.
Qed.

(** ** Running the computations *)

(** Case analysis on the first call whose outcome is not known yet. *)
Ltac settle :=
  match goal with
  | |- context [match ?x with _ => _ end] =>
      lazymatch x with
      | context [match _ with _ => _ end] => fail
      | _ => destruct x eqn:?
      end
  | H : context [match ?x with _ => _ end] |- _ =>
      lazymatch x with
      | context [match _ with _ => _ end] => fail
      | _ => destruct x eqn:?
      end
  end.

Ltac unfold_runtime :=
  unfold bind, try_catch, after, log, await, eval, ret, throw, get_env, set_env in *.

Lemma getNext_trace engine api c e :
  trace (getNext engine api c e) = [Fetch_GET (next_url api) (poll c)].
Proof.
  unfold getNext, JSON_parse_M. unfold_runtime.
  repeat (settle; simpl); reflexivity.
Qed.


(** What [getNext] hands out when it returns. *)
Lemma getNext_done engine api c e next e1 T :
  getNext engine api c e = mkRun (Done next) e1 T ->
  exists res,
    poll c = Resolved res /\
    json res = Resolved (Next.event next) /\
    Next.requestId next = headers_get (headers res) "Lambda-Runtime-Aws-Request-Id" /\
    Next.invokedArn next = headers_get (headers res) "Lambda-Runtime-Invoked-Function-Arn" /\
    Next.deadlineMs next =
      Number (nullish (headers_get (headers res) "Lambda-Runtime-Deadline-Ms")
                      (number_to_string (Int (clock c + 3000)))) /\
    T = [Fetch_GET (next_url api) (poll c)].
Proof.
  unfold getNext, JSON_parse_M. unfold_runtime.
  intros H.
  repeat (settle; simpl in *; try discriminate);
    injection H as <- <- <-; eexists; repeat split; eauto.
Qed.

(** ** The invocation context *)

(** C8: for every constructed context and every query time [t],
    [getRemainingTimeInMillis()] evaluated at [t] is
    [Math.max(0, deadlineMs - t)], that is [max 0 (d - t)] for an integer
    deadline [d]; it is never below zero, and it does not increase from a
    time [t] to a later time [t']. *)
Theorem remaining_time_formula (e : gmap string string) (base : Next.t) (t t' : Z) :
  t <= t' ->
  let ctx := buildContext e base in
  getRemainingTimeInMillis ctx t = Math_max (Int 0) (num_sub (deadlineMs ctx) (Int t))
  /\ (forall d, deadlineMs ctx = Int d ->
                getRemainingTimeInMillis ctx t = Int (Z.max 0 (d - t)))
  /\ num_ltb (getRemainingTimeInMillis ctx t) (Int 0) = false
  /\ num_ltb (getRemainingTimeInMillis ctx t) (getRemainingTimeInMillis ctx t') = false.
Proof.
  intros Htt'. simpl.
  split; [reflexivity|].
  split; [intros d ->; reflexivity|].
  destruct (Next.deadlineMs base) as [|d]; simpl; [auto|].
  split; apply Z.ltb_ge; lia.
Qed.

Lemma remaining_time_formula_witness :
  getRemainingTimeInMillis (buildContext lambda_env sample_base) 1700000000500
    = Int 2500
  /\ getRemainingTimeInMillis (buildContext lambda_env sample_base) 1700000009000
    = Int 0.
Proof.
  pose proof (remaining_time_formula lambda_env sample_base
                1700000000500 1700000009000 ltac:(lia)) as [_ [H _]].
  pose proof (remaining_time_formula lambda_env sample_base
                1700000009000 1700000009000 ltac:(lia)) as [_ [H' _]].
  split; [apply (H 1700000003000) | apply (H' 1700000003000)]; reflexivity.
Defined.

(** C9: when the poll response carries no deadline header, the deadline of
    the constructed context is the reading of the clock in the poll step
    plus 3000 milliseconds, so that the remaining time is 3000 at that
    reading, and 3000 less the elapsed time (never below zero) later on. *)
Theorem default_deadline engine api c e res next e1 T :
  poll c = Resolved res ->
  headers_get (headers res) "Lambda-Runtime-Deadline-Ms" = None ->
  getNext engine api c e = mkRun (Done next) e1 T ->
  let ctx := buildContext e1 next in
  deadlineMs ctx = Int (clock c + 3000)
  /\ getRemainingTimeInMillis ctx (clock c) = Int 3000
  /\ forall d, 0 <= d ->
       getRemainingTimeInMillis ctx (clock c + d) = Int (Z.max 0 (3000 - d)).
Proof.
  intros Hpoll Hnone Hnext.
  destruct (getNext_done _ _ _ _ _ _ _ Hnext) as (res' & Hp & _ & _ & _ & Hd & _).
  rewrite Hpoll in Hp. injection Hp as <-.
  rewrite Hnone in Hd. simpl in Hd.
  rewrite Number_number_to_string in Hd.
  simpl. rewrite Hd. simpl.
  split; [reflexivity|].
  split; [f_equal; lia|].
  intros d Hd0. f_equal. lia.
Qed.

Lemma sample_cycle_poll :
  getNext deno api_9001 sample_cycle lambda_env
  = mkRun (Done sample_next) lambda_env [sample_poll].
Proof. vm_compute. reflexivity. Qed.

Lemma default_deadline_witness :
  deadlineMs (buildContext lambda_env sample_next) = Int 1700000003000
  /\ getRemainingTimeInMillis (buildContext lambda_env sample_next) 1700000000000
     = Int 3000.
Proof.
  pose proof (default_deadline deno api_9001 sample_cycle lambda_env
                sample_response sample_next lambda_env [sample_poll]
                eq_refl eq_refl sample_cycle_poll) as [H1 [H2 _]].
  split; [exact H1 | exact H2].
Defined.

(** ** The error payload *)

Lemma split_chars_nonempty sep l : split_chars sep l <> [].
Proof.
  destruct l as [|c l]; simpl; [discriminate|].
  destruct (Ascii.eqb c sep); [discriminate|].
  destruct (split_chars sep l); discriminate.
Qed.

(** The pieces of a split are the text between the separators, in order. *)
Lemma unsplit_split_chars sep l : unsplit sep (split_chars sep l) = l.
Proof.
  induction l as [|c l IH]; simpl; [reflexivity|].
  destruct (Ascii.eqb_spec c sep) as [->|Hne].
  - pose proof (split_chars_nonempty sep l) as Hn.
    destruct (split_chars sep l) as [|p ps] eqn:E; [congruence|].
    change (unsplit sep ([] :: p :: ps)) with (sep :: unsplit sep (p :: ps)).
    rewrite IH. reflexivity.
  - pose proof (split_chars_nonempty sep l) as Hn.
    destruct (split_chars sep l) as [|p ps] eqn:E; [congruence|].
    destruct ps as [|q ps]; simpl in *; rewrite IH; reflexivity.
Qed.

(** C5, as the code has it: [toErrorPayload] returns a payload or throws.
    For an [Error] it returns: the payload carries its name (or [Error]
    when the name is empty), its message, and the lines of its stack,
    trimmed and in order; without a stack the trace is the single empty
    line.  For any other value it converts the value with [String]: when
    the conversion returns, the type is [Error], the message is the string
    representation and the trace is that of the [Error] made for it; when
    the conversion throws, [toErrorPayload] throws the same value and
    returns no payload.  Every line of a returned payload is trimmed and
    its trace is never the empty sequence. *)
Theorem toErrorPayload_shape (engine : Engine) (err : JsValue) :
  match err with
  | VErr e =>
      exists p,
        toErrorPayload engine err = Returns p
        /\ errorType p = (if String.eqb (name e) "" then "Error" else name e)
        /\ errorMessage p = message e
        /\ match stack e with
           | Some s =>
               stackTrace p = map trim (split LF s)
               /\ unsplit LF (map list_ascii_of_string (split LF s))
                  = list_ascii_of_string s
           | None => stackTrace p = [""]
           end
  | _ =>
      match String_ (TypeError engine) err with
      | Returns s =>
          exists p,
            toErrorPayload engine err = Returns p
            /\ errorType p = "Error"
            /\ errorMessage p = s
            /\ stackTrace p
               = map trim (split LF (nullish (capture_stack engine "Error" s) ""))
      | Throws x => toErrorPayload engine err = Throws x
      end
  end
  /\ (forall p, toErrorPayload engine err = Returns p ->
        Forall (fun line => trim line = line) (stackTrace p)
        /\ stackTrace p <> []).
Proof.
  split.
  - destruct err as [| |b|n|d|s|sym|items|props|e|s j];
      unfold toErrorPayload, as_Error;
      try (destruct (String_ (TypeError engine) _);
           [eexists; split; [reflexivity|repeat split]|reflexivity]).
    eexists. split; [reflexivity|]. simpl.
    split; [destruct (name e); reflexivity|].
    split; [reflexivity|].
    destruct (stack e) as [s|]; [|reflexivity].
    split; [reflexivity|].
    unfold split. rewrite map_map.
    erewrite map_ext; [rewrite map_id; apply unsplit_split_chars|].
    intros l. apply list_ascii_of_string_of_list_ascii.
  - intros p Hp. unfold toErrorPayload in Hp.
    destruct (as_Error engine err) as [e|x]; [|discriminate].
    simpl in Hp. injection Hp as <-. simpl. split.
    + apply List.Forall_forall. intros line Hin.
      apply in_map_iff in Hin as [x [<- _]]. apply trim_idempotent.
    + unfold split. intros H. apply map_eq_nil in H. apply map_eq_nil in H.
      exact (split_chars_nonempty _ _ H).
Qed.

(** C5 as stated fails twice.  Without a stack the trace is not the empty
    sequence, it holds one empty line; and for a value that [String]
    cannot convert, here the object [{toString: null}], no payload is
    returned: [toErrorPayload] throws the [TypeError] of the conversion. *)
Lemma toErrorPayload_no_stack_counterexample :
  (exists p,
      toErrorPayload deno (VErr (mkError "TypeError" "bad input" None)) = Returns p
      /\ stackTrace p = [""]
      /\ stackTrace p <> [])
  /\ toErrorPayload deno (VObj [("toString", VNull)])
     = Throws (TypeError deno (VObj [("toString", VNull)])).
Proof.
  split; [eexists; split; [reflexivity|split; [reflexivity|discriminate]]|].
  reflexivity.
Qed.

(** ** Start-up *)

Lemma reportInitError_swallows engine api net err e :
  (forall x, completion (reportInitError engine api net err e) <> Thrown x)
  /\ (length (trace (reportInitError engine api net err e)) <= 1)%nat.
Proof.
  unfold reportInitError, post. unfold_runtime.
  destruct (negb (truthy_opt api)); simpl; [split; [discriminate|lia]|].
  destruct (toErrorPayload engine err) as [p|z]; cbn beta iota;
    [rewrite stringify_payload|]; simpl; [|split; [discriminate|lia]].
  destruct (net (init_error_url api)); simpl; split; try discriminate; lia.
Qed.

(** C4: when [AWS_LAMBDA_RUNTIME_API] is absent (or empty) at start-up, the
    runtime sends no init-error report (at most one), writes the diagnostic
    to standard error and exits with status 1, a non-zero status, without
    issuing any poll; and [reportInitError] never throws, whatever becomes
    of the report it sends. *)
Theorem fatal_startup engine (handler : Handler) (init : Delivery)
  (cycles : list Cycle) (e : gmap string string) :
  truthy_opt (RUNTIME_API e) = false ->
  let r := start engine handler init cycles e in
  completion r = Exited 1
  /\ 1 <> 0
  /\ trace r = [Console_error not_on_lambda; Process_exit 1]
  /\ polls (trace r) = 0%nat
  /\ (length (posted (init_error_url (RUNTIME_API e)) (trace r)) <= 1)%nat
  /\ (forall api net err e0 x,
        completion (reportInitError engine api net err e0) <> Thrown x).
Proof.
  intros Habsent. simpl.
  assert (Hrun : start engine handler init cycles e
                 = mkRun (Exited 1) e [Console_error not_on_lambda; Process_exit 1]).
  { unfold start, reportInitError, console_error, process_exit. unfold_runtime.
    rewrite Habsent. reflexivity. }
  rewrite Hrun. simpl.
  repeat split; try reflexivity; try lia.
  intros api net err e0 x. apply reportInitError_swallows.
Qed.

Lemma fatal_startup_witness :
  completion (start deno echo down [sample_cycle] ∅) = Exited 1
  /\ trace (start deno echo down [sample_cycle] ∅)
     = [Console_error not_on_lambda; Process_exit 1].
Proof.
  pose proof (fatal_startup deno echo down [sample_cycle] ∅ eq_refl)
    as (H1 & _ & H2 & _).
  split; [exact H1 | exact H2].
Defined.

(** ** The loop *)

Lemma bind_done {A B} (m : M A) (k : A -> M B) e a e' t :
  m e = mkRun (Done a) e' t -> bind m k e = after t (k a e').
Proof. unfold bind. intros ->. reflexivity. Qed.

Lemma trace_after {A} t (r : Run A) : trace (after t r) = (t ++ trace r)%list.
Proof. destruct r; reflexivity. Qed.

Lemma iteration_after_poll engine api handler c e next e1 T :
  getNext engine api c e = mkRun (Done next) e1 T ->
  iteration engine api handler c e = after T (dispatch engine api handler c next e1).
Proof. intros H. unfold iteration. apply bind_done. exact H. Qed.

(** The shape of one turn: the poll, then effects that are not polls, the
    last of which, when the turn completes, is a settled report for the
    invocation that the poll handed out. *)
Lemma iteration_shape engine api handler c e :
  exists tl,
    trace (iteration engine api handler c e)
      = Fetch_GET (next_url api) (poll c) :: tl
    /\ Forall (fun ev => is_get ev = false) tl
    /\ (forall u, completion (iteration engine api handler c e) = Done u ->
        exists tl0 rep rid,
          tl = (tl0 ++ [rep])%list
          /\ polled_id (Fetch_GET (next_url api) (poll c)) = Some rid
          /\ is_report api rid rep = true).
Proof.
  unfold iteration, dispatch, getNext, JSON_parse_M, call, respond, respondError,
    post.
  unfold_runtime.
  repeat (settle; simpl).
  all: eexists; split; [reflexivity|].
  all: (split; [repeat constructor|]).
  all: intros u Hu; try discriminate.
  all: match goal with
       | |- exists tl0 rep rid, [?a; ?b] = _ /\ _ => exists [a], b
       | |- exists tl0 rep rid, [?a; ?b; ?c] = _ /\ _ => exists [a; b], c
       end.
  all: eexists; split; [reflexivity|]; split; [reflexivity|].
  all: simpl; rewrite ?String.eqb_refl, ?orb_true_r; reflexivity.
Qed.

Lemma loop_sequential engine api handler cycles :
  forall e, sequential api (trace (loop engine api handler cycles e)).
Proof.
  induction cycles as [|c rest IH]; intros e; simpl loop.
  - unfold getNext. unfold_runtime. simpl. apply seq_last. constructor.
  - destruct (iteration_shape engine api handler c e) as (tl & Ht & Hno & Hdone).
    unfold bind.
    destruct (iteration engine api handler c e) as [[u|x|code|] e' t];
      simpl in *; subst t; try (apply seq_last; exact Hno).
    destruct (Hdone u eq_refl) as (tl0 & rep & rid & -> & Hid & Hrep).
    rewrite trace_after. rewrite <- app_comm_cons, <- app_assoc. simpl.
    apply (seq_turn api _ rid); auto.
    apply List.Forall_app in Hno. tauto.
Qed.

Lemma start_sequential engine handler init cycles e :
  sequential (RUNTIME_API e) (trace (start engine handler init cycles e)).
Proof.
  unfold start, reportInitError, console_error, process_exit.
  unfold bind at 1. unfold get_env.
  rewrite trace_after. simpl.
  destruct (truthy_opt (RUNTIME_API e)) eqn:E; simpl.
  - apply loop_sequential.
  - unfold_runtime. simpl. apply seq_quiet. repeat constructor.
Qed.

Lemma report_not_get api rid r : is_report api rid r = true -> is_get r = false.
Proof. destruct r; simpl; congruence. Qed.

Lemma sequential_ordered api T :
  sequential api T ->
  forall i j g1 g2,
    (i < j)%nat ->
    T !! i = Some g1 -> is_get g1 = true ->
    T !! j = Some g2 -> is_get g2 = true ->
    exists k r rid,
      (i < k < j)%nat /\ T !! k = Some r
      /\ polled_id g1 = Some rid /\ is_report api rid r = true.
Proof.
  induction 1 as [tl Hno | g tl Hno | g rid tl r T Hid Hno Hrep Hseq IH];
    intros i j g1 g2 Hij Hi Hg1 Hj Hg2.
  - rewrite List.Forall_forall in Hno.
    apply list_elem_of_lookup_2, list_elem_of_In, Hno in Hi. congruence.
  - destruct j as [|j]; [lia|]. simpl in Hj.
    rewrite List.Forall_forall in Hno.
    apply list_elem_of_lookup_2, list_elem_of_In, Hno in Hj. congruence.
  - rewrite List.Forall_forall in Hno.
    assert (Hin : forall n x, ((tl ++ r :: T)%list : list Effect) !! n = Some x -> is_get x = true ->
                  exists m, n = (length tl + S m)%nat /\ T !! m = Some x).
    { intros n x Hn Hx. apply lookup_app_Some in Hn as [Hn | [Hle Hn]].
      - apply list_elem_of_lookup_2, list_elem_of_In, Hno in Hn. congruence.
      - destruct (n - length tl)%nat as [|m] eqn:E; simpl in Hn.
        + injection Hn as <-. apply report_not_get in Hrep. congruence.
        + exists m. split; [lia|exact Hn]. }
    destruct j as [|j]; [lia|]. simpl in Hj.
    destruct (Hin j g2 Hj Hg2) as (mj & -> & Hmj).
    destruct i as [|i]; simpl in Hi.
    + injection Hi as <-.
      exists (S (length tl)), r, rid. split; [lia|].
      split; [|auto]. simpl. apply list_lookup_middle. reflexivity.
    + destruct (Hin i g1 Hi Hg1) as (mi & -> & Hmi).
      destruct (IH mi mj g1 g2 ltac:(lia) Hmi Hg1 Hmj Hg2)
        as (k & r' & rid' & Hk & Hlk & Hid' & Hrep').
      exists (S (length tl + S k)), r', rid'. split; [lia|].
      split; [|auto]. simpl.
      rewrite lookup_app_r by lia.
      replace (length tl + S k - length tl)%nat with (S k) by lia.
      exact Hlk.
Qed.

(** C1: in every run, a poll is issued only after the report for the
    invocation handed out by any earlier poll has been issued and has
    settled: between two polls of the trace there is a POST to the response
    or to the error endpoint of the earlier poll's request id that has
    returned or thrown.  No two invocations are in flight. *)
Theorem one_at_a_time engine handler init cycles e (i j : nat) :
  let api := RUNTIME_API e in
  let T := trace (start engine handler init cycles e) in
  (i < j)%nat ->
  poll_at api T i = true ->
  poll_at api T j = true ->
  exists k, (i < k < j)%nat /\ report_at api T i k = true.
Proof.
  intros api T Hij Hi Hj.
  unfold poll_at in Hi, Hj.
  destruct (T !! i) as [g1|] eqn:Ei; [|discriminate].
  destruct (T !! j) as [g2|] eqn:Ej; [|discriminate].
  destruct (sequential_ordered api T (start_sequential _ _ _ _ _) i j g1 g2)
    as (k & r & rid & Hk & Hlk & Hid & Hrep); auto.
  { destruct g1; simpl; congruence. }
  { destruct g2; simpl; congruence. }
  exists k. split; [exact Hk|].
  unfold report_at. rewrite Ei, Hlk, Hid. exact Hrep.
Qed.

Lemma one_at_a_time_witness :
  exists k,
    (0 < k < 3)%nat
    /\ report_at (RUNTIME_API lambda_env)
                 (trace (start deno doubler up two_invocations lambda_env)) 0 k
       = true.
Proof.
  apply (one_at_a_time deno doubler up two_invocations lambda_env 0 3);
    [lia | vm_compute; reflexivity | vm_compute; reflexivity].
Defined.

(** ** One turn of the loop, case by case *)

Lemma bind_trace_prefix {A B} (m : M A) (k : A -> M B) e :
  exists more, trace (bind m k e) = (trace (m e) ++ more)%list.
Proof.
  unfold bind. destruct (m e) as [[a|x|code|] e' t]; simpl;
    try (exists []; symmetry; apply app_nil_r).
  rewrite trace_after. eauto.
Qed.

(** Every turn of the loop opens with a poll. *)
Lemma loop_first_poll engine api handler rest e :
  exists more,
    trace (loop engine api handler rest e)
    = Fetch_GET (next_url api) (next_poll rest) :: more.
Proof.
  destruct rest as [|c rest]; simpl loop.
  - unfold getNext. unfold_runtime. simpl. eauto.
  - destruct (bind_trace_prefix (iteration engine api handler c)
                (fun _ => loop engine api handler rest) e) as [more ->].
    destruct (iteration_shape engine api handler c e) as (tl & -> & _).
    simpl. eauto.
Qed.

Lemma loop_continues engine api handler c rest e e2 T2 :
  iteration engine api handler c e = mkRun (Done tt) e2 T2 ->
  exists more,
    trace (loop engine api handler (c :: rest) e)
    = (T2 ++ Fetch_GET (next_url api) (next_poll rest) :: more)%list.
Proof.
  intros H. simpl loop. rewrite (bind_done _ _ _ _ _ _ H), trace_after.
  destruct (loop_first_poll engine api handler rest e2) as [more ->]. eauto.
Qed.

Lemma after_nil {A} (r : Run A) : after [] r = r.
Proof. destruct r; reflexivity. Qed.

Lemma after_after {A} t t' (r : Run A) :
  after t (after t' r) = after (t ++ t') r.
Proof. destruct r; simpl. rewrite app_assoc. reflexivity. Qed.

Lemma bind_after {A B} t (r : Run A) (k : A -> M B) :
  match after t r with
  | mkRun (Done a) e' t' => after t' (k a e')
  | mkRun (Thrown x) e' t' => mkRun (Thrown x) e' t'
  | mkRun (Exited code) e' t' => mkRun (Exited code) e' t'
  | mkRun Blocked e' t' => mkRun Blocked e' t'
  end
  = after t match r with
            | mkRun (Done a) e' t' => after t' (k a e')
            | mkRun (Thrown x) e' t' => mkRun (Thrown x) e' t'
            | mkRun (Exited code) e' t' => mkRun (Exited code) e' t'
            | mkRun Blocked e' t' => mkRun Blocked e' t'
            end.
Proof.
  destruct r as [[a|x|code|] e' t']; simpl; try reflexivity.
  symmetry. apply after_after.
Qed.

Lemma bind_assoc {A B C} (m : M A) (k : A -> M B) (h : B -> M C) e :
  bind (bind m k) h e = bind m (fun a => bind (k a) h) e.
Proof.
  unfold bind. destruct (m e) as [[a|x|code|] e' t]; try reflexivity.
  apply bind_after.
Qed.

Lemma bind_ext {A B} (m : M A) (k k' : A -> M B) e :
  (forall a e', k a e' = k' a e') -> bind m k e = bind m k' e.
Proof.
  intros H. unfold bind. destruct (m e) as [[a|x|code|] e' t]; try reflexivity.
  rewrite H. reflexivity.
Qed.

(** Every turn of a run is the first turn of the loop, started from the
    environment that the turns before it have left. *)
Lemma loop_app engine api handler pre rest e :
  loop engine api handler (pre ++ rest) e
  = bind (turns engine api handler pre)
         (fun _ => loop engine api handler rest) e.
Proof.
  revert e. induction pre as [|c pre IH]; intros e.
  - unfold bind. simpl. symmetry. apply after_nil.
  - change (loop engine api handler ((c :: pre) ++ rest) e)
      with (bind (iteration engine api handler c)
                 (fun _ => loop engine api handler (pre ++ rest)) e).
    change (turns engine api handler (c :: pre))
      with (bind (iteration engine api handler c)
                 (fun _ => turns engine api handler pre)).
    rewrite bind_assoc. apply bind_ext. intros _ e'. apply IH.
Qed.

(** With the endpoint configured, [start] is the loop. *)
Lemma start_loop engine handler init cycles e :
  truthy_opt (RUNTIME_API e) = true ->
  start engine handler init cycles e
  = loop engine (RUNTIME_API e) handler cycles e.
Proof.
  intros H. unfold start. unfold bind at 1. unfold get_env.
  rewrite H. simpl. apply after_nil.
Qed.

Lemma loop_stops engine api handler c rest e x e2 T2 :
  iteration engine api handler c e = mkRun (Thrown x) e2 T2 ->
  loop engine api handler (c :: rest) e = mkRun (Thrown x) e2 T2.
Proof. intros H. simpl loop. unfold bind. rewrite H. reflexivity. Qed.

Ltac run_dispatch :=
  unfold dispatch, call, respond, respondError, post; unfold_runtime.

Lemma last_char_append (a b : string) :
  b <> "" -> last_char (a ++ b) = last_char b.
Proof.
  intros Hb. induction a as [|ch a IH]; [reflexivity|].
  change (String ch a ++ b) with (String ch (a ++ b)).
  simpl. destruct (a ++ b) eqn:E; [|exact IH].
  destruct a; [change (b = "") in E; congruence | discriminate E].
Qed.

Lemma append_nonempty (a b : string) : b <> "" -> a ++ b <> "".
Proof. destruct a; [trivial | discriminate]. Qed.

(** The two report endpoints have different URLs, whatever the ids. *)
Lemma response_url_not_error_url api rid rid' :
  response_url api rid <> error_url api rid'.
Proof.
  intros H. apply (f_equal last_char) in H.
  unfold response_url, error_url in H.
  rewrite !last_char_append in H;
    repeat first [discriminate | apply append_nonempty].
Qed.

Lemma response_eqb_error api rid rid' :
  String.eqb (response_url api rid) (error_url api rid') = false
  /\ String.eqb (error_url api rid') (response_url api rid) = false.
Proof.
  split; apply String.eqb_neq;
    [|intros H; symmetry in H; revert H]; apply response_url_not_error_url.
Qed.

Lemma posted_app url T1 T2 :
  posted url (T1 ++ T2) = (posted url T1 ++ posted url T2)%list.
Proof.
  induction T1 as [|ev T1 IH]; [reflexivity|].
  destruct ev; simpl; try exact IH.
  destruct (String.eqb url0 url); simpl; congruence.
Qed.

Lemma invoked_app T1 T2 : invoked (T1 ++ T2) = (invoked T1 ++ invoked T2)%list.
Proof.
  induction T1 as [|ev T1 IH]; [reflexivity|].
  destruct ev; simpl; congruence.
Qed.

(** What [respondError] does: the report, or nothing at all when the
    payload cannot be built. *)
Lemma respondError_run engine api net rid x e1 :
  respondError engine api net rid x e1
  = match toErrorPayload engine x with
    | Returns p =>
        mkRun (completion_of (net (error_url api rid))) e1
              [Fetch_POST (error_url api rid) "application/json"
                          (Some (payload_text p)) (net (error_url api rid))]
    | Throws z => mkRun (Thrown z) e1 []
    end.
Proof.
  unfold respondError, post. unfold_runtime.
  destruct (toErrorPayload engine x) as [p|z]; cbn beta iota; [|reflexivity].
  rewrite post_body_payload. cbn beta iota.
  destruct (net (error_url api rid)) as [[]| |]; reflexivity.
Qed.

Section Turn.

Variable engine : Engine.
Variable api : option string.
Variable handler : Handler.
Variable c : Cycle.
Variable rest : list Cycle.
Variables e e1 : gmap string string.
Variable next : Next.t.
Variable T : list Effect.
Hypothesis Hnext : getNext engine api c e = mkRun (Done next) e1 T.

Let rid := Next.requestId next.
Let ctx := buildContext e1 next.
Let ev := Next.event next.
Let json_type := "application/json".

(** What the turn does after the poll step, by the outcome of the handler,
    of the serialization of its result and of the response report;
    [caught pre x] is the catch block entered with [x] after the effects
    [pre]. *)
Lemma turn_run :
  iteration engine api handler c e =
  let called := Invoke ev ctx (handler ev ctx) in
  let caught pre x :=
    after (T ++ pre) (respondError engine api (delivery c) rid x e1) in
  match handler ev ctx with
  | Resolved v =>
      match post_body v with
      | Returns body =>
          let respond_v :=
            Fetch_POST (response_url api rid) json_type body
              (delivery c (response_url api rid)) in
          match delivery c (response_url api rid) with
          | Resolved u => mkRun (Done u) e1 (T ++ [called; respond_v])
          | Rejected y => caught [called; respond_v] y
          | Pending => mkRun Blocked e1 (T ++ [called; respond_v])
          end
      | Throws z => caught [called] z
      end
  | Rejected err => caught [called] err
  | Pending => mkRun Blocked e1 (T ++ [called])
  end.
Proof using Hnext.
  rewrite (iteration_after_poll _ _ _ _ _ _ _ _ Hnext).
  unfold dispatch, call, respond, post. unfold_runtime. fold ctx ev rid.
  cbn beta iota zeta.
  destruct (handler ev ctx) as [v|err|]; cbn beta iota; [| |reflexivity].
  - destruct (post_body v) as [body|z]; cbn beta iota.
    + destruct (delivery c (response_url api rid)) as [[]|y|]; cbn beta iota;
        [reflexivity| |reflexivity].
      destruct (respondError engine api (delivery c) rid y e1); simpl.
      rewrite <- app_assoc. reflexivity.
    + destruct (respondError engine api (delivery c) rid z e1); simpl.
      rewrite <- app_assoc. reflexivity.
  - destruct (respondError engine api (delivery c) rid err e1); simpl.
    rewrite <- app_assoc. reflexivity.
Qed.

Lemma turn_opens_with_poll : T = [Fetch_GET (next_url api) (poll c)].
Proof using Hnext.
  destruct (getNext_done _ _ _ _ _ _ _ Hnext) as (? & _ & _ & _ & _ & _ & H).
  exact H.
Qed.

(** The cases of a turn, one by one. *)
Ltac turn_cases :=
  rewrite turn_run, turn_opens_with_poll; cbn zeta;
  destruct (handler ev ctx) as [v|err|];
  [destruct (post_body v) as [body|z];
   [destruct (delivery c (response_url api rid)) as [[]|y|]|]|..];
  rewrite ?respondError_run;
  repeat match goal with
         | |- context [toErrorPayload engine ?x] =>
             destruct (toErrorPayload engine x)
         end.

Ltac count_posts :=
  rewrite ?posted_app; cbn [posted app];
  rewrite ?String.eqb_refl,
    ?(proj1 (response_eqb_error api rid rid)),
    ?(proj2 (response_eqb_error api rid rid)); cbn [app length].

(** C2, as the code has it: a turn never sends a report twice to the same
    endpoint; a failed POST to the error endpoint is not caught, it escapes
    [start] and ends the loop without a further poll; a failed POST to the
    response endpoint is caught, and the turn then ends as the error report
    that follows it does, the loop going on to the next poll when that
    report is delivered.  (When no payload can be made of the caught
    failure, no error report follows and [toErrorPayload]'s own failure
    ends the loop.) *)
Theorem failed_report_policy :
  let it := iteration engine api handler c e in
  let run := loop engine api handler (c :: rest) e in
  ((length (posted (response_url api rid) (trace it)) <= 1)%nat
   /\ (length (posted (error_url api rid) (trace it)) <= 1)%nat)
  /\ (forall x,
        delivery c (error_url api rid) = Rejected x ->
        posted (error_url api rid) (trace it) <> [] ->
        run = mkRun (Thrown x) e1 (trace it) /\ polls (trace run) = 1%nat)
  /\ (forall y,
        delivery c (response_url api rid) = Rejected y ->
        posted (response_url api rid) (trace it) <> [] ->
        match toErrorPayload engine y with
        | Returns p =>
            posted (error_url api rid) (trace it) = [Some (payload_text p)]
            /\ completion it = completion_of (delivery c (error_url api rid))
            /\ (delivery c (error_url api rid) = Resolved tt ->
                exists more,
                  trace run
                  = (trace it
                     ++ Fetch_GET (next_url api) (next_poll rest) :: more)%list)
        | Throws z =>
            posted (error_url api rid) (trace it) = []
            /\ run = mkRun (Thrown z) e1 (trace it)
        end).
Proof using Hnext.
  intros it run. subst it run.
  split; [|split].
  - turn_cases; cbn [after trace app]; count_posts; lia.
  - intros x Hx Hsent.
    assert (Hit : iteration engine api handler c e
                  = mkRun (Thrown x) e1 (trace (iteration engine api handler c e))).
    { revert Hsent. turn_cases; cbn [after trace app]; count_posts;
        rewrite ?Hx; cbn [completion_of]; congruence. }
    rewrite (loop_stops _ _ _ _ _ _ _ _ _ Hit). split; [reflexivity|].
    cbn [trace]. clear Hit Hsent. turn_cases; reflexivity.
  - intros y Hy Hsent.
    assert (Hit : exists v body,
               handler ev ctx = Resolved v /\ post_body v = Returns body
               /\ iteration engine api handler c e
                  = after (T ++ [Invoke ev ctx (Resolved v);
                                 Fetch_POST (response_url api rid) json_type body
                                            (Rejected y)])
                          (respondError engine api (delivery c) rid y e1)).
    { revert Hsent. rewrite turn_run. cbn zeta.
      destruct (handler ev ctx) as [v|err|] eqn:Hv;
        [destruct (post_body v) as [body|z] eqn:Hb|..].
      - rewrite Hy. intros _. eauto.
      - rewrite respondError_run, turn_opens_with_poll.
        destruct (toErrorPayload engine z);
          cbn [after trace app]; count_posts; congruence.
      - rewrite respondError_run, turn_opens_with_poll.
        destruct (toErrorPayload engine err);
          cbn [after trace app]; count_posts; congruence.
      - rewrite turn_opens_with_poll. cbn [trace app]. count_posts. congruence. }
    destruct Hit as (v & body & Hv & Hb & Hit). rewrite respondError_run in Hit.
    destruct (toErrorPayload engine y) as [p|z]; cbn [after] in Hit.
    + rewrite Hit. cbn [trace completion].
      split; [rewrite turn_opens_with_poll; count_posts; reflexivity|].
      split; [reflexivity|].
      intros Hup. eapply loop_continues. rewrite Hit, Hup. reflexivity.
    + rewrite Hit. cbn [trace].
      split; [rewrite turn_opens_with_poll; count_posts; reflexivity|].
      apply loop_stops. exact Hit.
Qed.

(** C10, as the code has it: when the handler completes with a value and
    the POST to the response endpoint fails, the failure is caught and one
    POST goes to the error endpoint of the same request id, its body the
    JSON text of the error payload of the delivery failure; the loop polls
    again when that error report is delivered, and ends with the failure of
    the error report when it is not.  (When no payload can be made of the
    delivery failure, [toErrorPayload]'s own failure ends the loop and no
    error report is sent.) *)
Theorem failed_response_is_reported (v y : JsValue) (body : option string) :
  handler ev ctx = Resolved v ->
  post_body v = Returns body ->
  delivery c (response_url api rid) = Rejected y ->
  let it := iteration engine api handler c e in
  let run := loop engine api handler (c :: rest) e in
  let sent :=
    [Invoke ev ctx (Resolved v);
     Fetch_POST (response_url api rid) json_type body (Rejected y)] in
  match toErrorPayload engine y with
  | Returns p =>
      let payload := Some (payload_text p) in
      trace it
      = (T ++ sent
           ++ [Fetch_POST (error_url api rid) json_type payload
                          (delivery c (error_url api rid))])%list
      /\ posted (error_url api rid) (trace it) = [payload]
      /\ JSON_parse (payload_text p) = Some (payload_value p)
      /\ (delivery c (error_url api rid) = Resolved tt ->
          exists more,
            trace run
            = (trace it ++ Fetch_GET (next_url api) (next_poll rest) :: more)%list)
      /\ (forall x,
            delivery c (error_url api rid) = Rejected x ->
            run = mkRun (Thrown x) e1 (trace it))
  | Throws z =>
      trace it = (T ++ sent)%list
      /\ run = mkRun (Thrown z) e1 (T ++ sent)
  end.
Proof using Hnext.
  intros Hv Hb Hy it run sent. subst it run sent.
  pose proof turn_run as Hrun.
  pose proof turn_opens_with_poll as HT.
  fold rid ctx ev json_type in Hrun. cbn zeta in Hrun.
  rewrite Hv, Hb, Hy, respondError_run in Hrun.
  destruct (toErrorPayload engine y) as [p|z]; cbn [after] in Hrun.
  - rewrite Hrun. cbn [trace].
    split; [rewrite <- app_assoc; reflexivity|].
    split; [rewrite HT; count_posts; reflexivity|].
    split; [apply payload_text_parses|].
    split.
    + intros Hup. eapply loop_continues. rewrite Hrun, Hup. reflexivity.
    + intros x Hx. apply loop_stops. rewrite Hrun, Hx. reflexivity.
  - rewrite Hrun. cbn [trace]. rewrite app_nil_r.
    split; [reflexivity|].
    apply loop_stops. rewrite Hrun, app_nil_r. reflexivity.
Qed.

End Turn.

(** The cases of a turn whose poll step returned, one by one. *)
Ltac turn_table Hnext :=
  rewrite (turn_run _ _ _ _ _ _ _ _ Hnext),
          (turn_opens_with_poll _ _ _ _ _ _ _ Hnext); cbn zeta;
  match goal with
  | |- context [Invoke _ _ ?o] => destruct o as [?v|?err|]
  end;
  [match goal with
   | |- context [post_body ?v] => destruct (post_body v) as [?body|?z]
   end;
   [match goal with
    | |- context [Fetch_POST _ _ _ ?d] => destruct d as [[]|?y|]
    end|]|..];
  rewrite ?respondError_run;
  repeat match goal with
         | |- context [toErrorPayload ?en ?x] => destruct (toErrorPayload en x)
         end;
  try match goal with
      | |- context [completion_of ?d] => destruct d as [[]|?x|]
      end;
  cbn [after trace completion env_after completion_of app].

(** ** The poll step *)

(** What [getNext] throws: the failure of the poll, the failure of the body
    to parse, or the [SyntaxError] of a JSON header. *)
Lemma getNext_thrown engine api c e x :
  completion (getNext engine api c e) = Thrown x ->
  poll c = Rejected x
  \/ exists res, poll c = Resolved res
                 /\ (json res = Rejected x \/ exists text, x = SyntaxError engine text).
Proof.
  unfold getNext, JSON_parse_M. unfold_runtime.
  repeat (settle; simpl; try discriminate);
    intros H; injection H as <-; eauto 6.
Qed.

(** C3, as the code has it: when the body of a poll response fails to parse
    as JSON, the handler is not invoked and nothing is reported: the
    failure escapes [start] and the loop ends there. *)
Theorem body_parse_failure_propagates engine (handler : Handler) (init : Delivery)
  (c : Cycle) (rest : list Cycle) (e : gmap string string) (res : Response)
  (x : JsValue) :
  truthy_opt (RUNTIME_API e) = true ->
  poll c = Resolved res ->
  json res = Rejected x ->
  let run := start engine handler init (c :: rest) e in
  run = mkRun (Thrown x) e [Fetch_GET (next_url (RUNTIME_API e)) (poll c)]
  /\ invoked (trace run) = []
  /\ (forall url, posted url (trace run) = [])
  /\ polls (trace run) = 1%nat.
Proof.
  intros Hapi Hpoll Hjson run.
  assert (Hrun : run = mkRun (Thrown x) e
                         [Fetch_GET (next_url (RUNTIME_API e)) (poll c)]).
  { subst run. unfold start, iteration, getNext. unfold_runtime.
    rewrite Hapi. simpl. unfold iteration, getNext. unfold_runtime.
    rewrite Hpoll. simpl. rewrite Hjson. reflexivity. }
  rewrite Hrun. repeat split; reflexivity.
Qed.

(** The poll step does not look at the request-id header: it completes
    with or without the header in the same way, but for the id that it
    returns. *)
Lemma getNext_request_id engine api c e res id :
  poll c = Resolved res ->
  completion (getNext engine api c e)
  = with_id (headers_get (headers res) "Lambda-Runtime-Aws-Request-Id")
            (completion (getNext engine api (with_request_id id c) e))
  /\ env_after (getNext engine api c e)
     = env_after (getNext engine api (with_request_id id c) e).
Proof.
  intros Hpoll. unfold getNext, with_request_id, JSON_parse_M. rewrite Hpoll.
  unfold_runtime. cbn [poll clock headers json headers_get].
  change (String.eqb "Lambda-Runtime-Aws-Request-Id" "Lambda-Runtime-Aws-Request-Id")
    with true.
  change (String.eqb "Lambda-Runtime-Aws-Request-Id" "Lambda-Runtime-Trace-Id")
    with false.
  change (String.eqb "Lambda-Runtime-Aws-Request-Id"
                     "Lambda-Runtime-Invoked-Function-Arn") with false.
  change (String.eqb "Lambda-Runtime-Aws-Request-Id" "Lambda-Runtime-Deadline-Ms")
    with false.
  change (String.eqb "Lambda-Runtime-Aws-Request-Id" "Lambda-Runtime-Client-Context")
    with false.
  change (String.eqb "Lambda-Runtime-Aws-Request-Id"
                     "Lambda-Runtime-Cognito-Identity") with false.
  cbn beta iota.
  repeat (settle; cbn [completion env_after with_id Next.invokedArn Next.deadlineMs
                        Next.clientContext Next.identity Next.event]);
    split; reflexivity.
Qed.

(** C7, as the code behaves: a poll response without the request-id header
    does not make the poll step fail.  The poll step completes as it does
    for the same response with the header, but for the id, which is null;
    it throws only for a body or a JSON header that does not parse.  When
    it returns, the handler is invoked with a null [awsRequestId], and
    every report of the turn goes to an endpoint spelled with [null] in
    place of the id. *)
Theorem missing_request_id engine api (handler : Handler) (c : Cycle)
  (e : gmap string string) (res : Response) (id : string) :
  poll c = Resolved res ->
  headers_get (headers res) "Lambda-Runtime-Aws-Request-Id" = None ->
  let polled := getNext engine api c e in
  let it := iteration engine api handler c e in
  completion polled
  = with_id None (completion (getNext engine api (with_request_id id c) e))
  /\ env_after polled = env_after (getNext engine api (with_request_id id c) e)
  /\ (forall x, completion polled = Thrown x ->
                json res = Rejected x \/ exists text, x = SyntaxError engine text)
  /\ (forall next,
        completion polled = Done next ->
        let ctx := buildContext (env_after polled) next in
        Next.requestId next = None
        /\ awsRequestId ctx = None
        /\ invoked (trace it) = [None]
        /\ Forall (reports_to api None) (trace it)
        /\ (forall v body,
              handler (Next.event next) ctx = Resolved v ->
              post_body v = Returns body ->
              posted (response_url api None) (trace it) = [body])
        /\ (forall err p,
              handler (Next.event next) ctx = Rejected err ->
              toErrorPayload engine err = Returns p ->
              posted (error_url api None) (trace it) = [Some (payload_text p)])
        /\ response_url api None
           = "http://" ++ template "undefined" api
             ++ "/2018-06-01/runtime/invocation/null/response").
Proof.
  intros Hpoll Hid polled it.
  destruct (getNext_request_id engine api c e res id Hpoll) as [Hsame Henv].
  rewrite Hid in Hsame.
  split; [exact Hsame|]. split; [exact Henv|]. split.
  - intros x Hx. apply getNext_thrown in Hx as [Hx | (res' & Hres & Hx)].
    + congruence.
    + rewrite Hpoll in Hres. injection Hres as <-. exact Hx.
  - intros next Hdone ctx.
    destruct polled as [k e1 T] eqn:Hnext. simpl in Hdone. subst k.
    subst polled. simpl env_after in ctx.
    destruct (getNext_done _ _ _ _ _ _ _ Hnext)
      as (res' & Hres & _ & Hrid & _ & _ & HT).
    rewrite Hpoll in Hres. injection Hres as <-. rewrite Hid in Hrid.
    pose proof turn_run engine api handler c e e1 next T Hnext as Hrun.
    cbn zeta in Hrun. fold ctx in Hrun. rewrite Hrid in Hrun.
    split; [exact Hrid|]. split; [exact Hrid|].
    subst it. rewrite Hrun, HT.
    split; [|split; [|split; [|split]]].
    + destruct (handler (Next.event next) ctx) as [v|err|];
        [destruct (post_body v) as [body|z];
         [destruct (delivery c (response_url api None)) as [[]|y|]|]|..];
        rewrite ?respondError_run;
        repeat match goal with
               | |- context [toErrorPayload engine ?x] =>
                   destruct (toErrorPayload engine x)
               end;
        cbn [after trace app]; unfold ctx; cbn; rewrite Hrid; reflexivity.
    + destruct (handler (Next.event next) ctx) as [v|err|];
        [destruct (post_body v) as [body|z];
         [destruct (delivery c (response_url api None)) as [[]|y|]|]|..];
        rewrite ?respondError_run;
        repeat match goal with
               | |- context [toErrorPayload engine ?x] =>
                   destruct (toErrorPayload engine x)
               end;
        cbn [after trace app];
        repeat (apply List.Forall_cons || apply List.Forall_nil); simpl; auto.
    + intros v body Hv Hb. rewrite Hv, Hb.
      destruct (delivery c (response_url api None)) as [[]|y|];
        rewrite ?respondError_run;
        repeat match goal with
               | |- context [toErrorPayload engine ?x] =>
                   destruct (toErrorPayload engine x)
               end;
        cbn [after trace app posted];
        rewrite ?String.eqb_refl, ?(proj2 (response_eqb_error api None None));
        reflexivity.
    + intros err p Herr Hp. rewrite Herr, respondError_run, Hp.
      cbn [after trace app posted].
      rewrite ?String.eqb_refl. reflexivity.
    + reflexivity.
Qed.

(** ** The reports of a turn *)

(** C6, as the code has it: when the handler completes with a value [v]
    whose body can be made, the turn sends exactly one POST to the response
    endpoint of the request id.  A string is sent verbatim; any other value
    is sent as [JSON.stringify] writes it, and for a JSON value (null, a
    boolean, a finite number, or an array or a plain object of strings and
    such values) the body parses back to [v].  When [JSON.stringify]
    throws, nothing is sent to the response endpoint: the thrown value is
    caught and reported to the error endpoint of the request id. *)
Theorem response_report engine api (handler : Handler) (c : Cycle)
  (e e1 : gmap string string) (next : Next.t) (T : list Effect) (v : JsValue) :
  getNext engine api c e = mkRun (Done next) e1 T ->
  handler (Next.event next) (buildContext e1 next) = Resolved v ->
  let rid := Next.requestId next in
  let it := iteration engine api handler c e in
  match post_body v with
  | Returns body =>
      posted (response_url api rid) (trace it) = [body]
      /\ (forall s, v = VStr s -> body = Some s)
      /\ (is_string v = false -> JSON_stringify v = Returns body)
      /\ (is_string v = false ->
          json_value v = true ->
          exists text, body = Some text /\ JSON_parse text = Some v)
  | Throws z =>
      is_string v = false
      /\ JSON_stringify v = Throws z
      /\ posted (response_url api rid) (trace it) = []
      /\ match toErrorPayload engine z with
         | Returns p =>
             posted (error_url api rid) (trace it) = [Some (payload_text p)]
         | Throws w =>
             posted (error_url api rid) (trace it) = []
             /\ completion it = Thrown w
         end
  end.
Proof.
  intros Hnext Hv rid it.
  pose proof turn_run engine api handler c e e1 next T Hnext as Hrun.
  pose proof turn_opens_with_poll engine api c e e1 next T Hnext as HT.
  cbn zeta in Hrun. rewrite Hv in Hrun. fold rid in Hrun.
  destruct (post_body v) as [body|z] eqn:Hb.
  - split; [|split; [|split]].
    + subst it. rewrite Hrun, HT.
      destruct (delivery c (response_url api rid)) as [[]|y|];
        rewrite ?respondError_run;
        repeat match goal with
               | |- context [toErrorPayload engine ?x] =>
                   destruct (toErrorPayload engine x)
               end;
        cbn [after trace]; rewrite ?posted_app; cbn [posted app];
        rewrite ?String.eqb_refl, ?(proj2 (response_eqb_error api rid rid));
        reflexivity.
    + intros s ->. simpl in Hb. congruence.
    + intros Hs. destruct v; try exact Hb. discriminate Hs.
    + intros Hs Hj. destruct (JSON_roundtrip v Hj) as (text & Hser & Hparse).
      exists text. split; [|exact Hparse].
      assert (Hb' : JSON_stringify v = Returns body)
        by (destruct v; try exact Hb; discriminate Hs).
      congruence.
  - assert (Hs : is_string v = false) by (destruct v; try reflexivity; discriminate Hb).
    split; [exact Hs|]. split; [destruct v; try exact Hb; discriminate Hs|].
    subst it. rewrite Hrun, HT, respondError_run.
    destruct (toErrorPayload engine z) as [p|w];
      cbn [after trace completion]; rewrite ?posted_app; cbn [posted app];
      rewrite ?String.eqb_refl, ?(proj2 (response_eqb_error api rid rid));
      repeat split; reflexivity.
Qed.

(** ** The claims on sample runs *)

(** The end-to-end scenario: the two results are reported in order, each
    before the next poll, and the run then waits on the third poll. *)
Example end_to_end :
  let run := start deno doubler up two_invocations lambda_env in
  requests (trace run)
  = [GET "http://127.0.0.1:9001/2018-06-01/runtime/invocation/next";
     POST "http://127.0.0.1:9001/2018-06-01/runtime/invocation/1/response"
          (Some ("{" ++ quoted "doubled" ++ ":2}"));
     GET "http://127.0.0.1:9001/2018-06-01/runtime/invocation/next";
     POST "http://127.0.0.1:9001/2018-06-01/runtime/invocation/2/response"
          (Some ("{" ++ quoted "doubled" ++ ":4}"));
     GET "http://127.0.0.1:9001/2018-06-01/runtime/invocation/next"]
  /\ invoked (trace run) = [Some "1"; Some "2"]
  /\ completion run = Blocked.
Proof. vm_compute. repeat split. Qed.

Lemma refused_poll :
  getNext deno api_9001 refused lambda_env
  = mkRun (Done refused_next) lambda_env [Fetch_GET (next_url api_9001) (poll refused)].
Proof. vm_compute. reflexivity. Qed.

Lemma dropped_poll :
  getNext deno api_9001 dropped lambda_env
  = mkRun (Done dropped_next) lambda_env [Fetch_GET (next_url api_9001) (poll dropped)].
Proof. vm_compute. reflexivity. Qed.

Lemma failed_report_policy_witness :
  completion (loop deno api_9001 doubler [refused; sample_cycle] lambda_env)
  = Thrown (VStr "ECONNREFUSED")
  /\ polls (trace (loop deno api_9001 doubler [refused; sample_cycle] lambda_env))
     = 1%nat.
Proof.
  destruct (failed_report_policy deno api_9001 doubler refused [sample_cycle]
              lambda_env lambda_env refused_next _ refused_poll)
    as (_ & Hdown & _).
  destruct (Hdown (VStr "ECONNREFUSED")) as [Hrun Hpolls].
  - reflexivity.
  - vm_compute. discriminate.
  - split; [rewrite Hrun; reflexivity | exact Hpolls].
Defined.

(** C2 as stated fails: the handler throws, the POST to the error endpoint
    fails, and the failure ends the loop; the second invocation is never
    polled. *)
Lemma failed_error_report_counterexample :
  let run := start deno doubler up [refused; sample_cycle] lambda_env in
  completion run = Thrown (VStr "ECONNREFUSED")
  /\ length (posted "http://127.0.0.1:9001/2018-06-01/runtime/invocation/1/error"
                    (trace run)) = 1%nat
  /\ polls (trace run) = 1%nat.
Proof. vm_compute. repeat split. Qed.

Lemma body_parse_failure_propagates_witness :
  start deno echo up [garbled; sample_cycle] lambda_env
  = mkRun (Thrown (SyntaxError deno "{")) lambda_env
          [Fetch_GET (next_url api_9001) (poll garbled)].
Proof.
  destruct (body_parse_failure_propagates deno echo up garbled [sample_cycle]
              lambda_env _ (SyntaxError deno "{") eq_refl eq_refl eq_refl)
    as [H _].
  exact H.
Defined.

(** C3 as stated fails: the body of the poll response does not parse, no
    error is reported against the request id, and the loop does not
    continue: the run ends with the parse error after the one poll. *)
Lemma garbled_body_counterexample :
  let run := start deno echo up [garbled; sample_cycle] lambda_env in
  completion run = Thrown (SyntaxError deno "{")
  /\ posted "http://127.0.0.1:9001/2018-06-01/runtime/invocation/1/error"
            (trace run) = []
  /\ polls (trace run) = 1%nat.
Proof. vm_compute. repeat split. Qed.

Lemma response_report_witness :
  posted "http://127.0.0.1:9001/2018-06-01/runtime/invocation/8476a536/response"
         (trace (iteration deno api_9001 doubler sample_cycle lambda_env))
  = [Some ("{" ++ quoted "doubled" ++ ":42}")]
  /\ JSON_parse ("{" ++ quoted "doubled" ++ ":42}") = Some (VObj [("doubled", VNum (Int 42))]).
Proof.
  destruct (response_report deno api_9001 doubler sample_cycle lambda_env
              lambda_env sample_next [sample_poll]
              (VObj [("doubled", VNum (Int 42))])
              sample_cycle_poll eq_refl)
    as (Hposted & _ & _ & Hjson).
  split; [exact Hposted|].
  destruct (Hjson eq_refl eq_refl) as (text & Hbody & Hparse).
  injection Hbody as <-. exact Hparse.
Defined.

(** C6 as stated fails twice.  The handler returns the string [oops]: the
    one POST to the response endpoint carries the four characters [oops],
    which do not deserialize as JSON to the string.  The handler returns
    the BigInt [1n]: [JSON.stringify] throws, no POST goes to the response
    endpoint, and the [TypeError] is reported to the error endpoint. *)
Lemma string_result_counterexample :
  (posted "http://127.0.0.1:9001/2018-06-01/runtime/invocation/1/response"
          (trace (start deno echo up [invocation "1" (VStr "oops") up] lambda_env))
   = [Some "oops"]
   /\ JSON_parse "oops" = None
   /\ JSON_stringify (VStr "oops") = Returns (Some (quoted "oops")))
  /\ (posted "http://127.0.0.1:9001/2018-06-01/runtime/invocation/1/response"
             (trace (start deno counter up [invocation "1" VNull up] lambda_env))
      = []
      /\ length (posted "http://127.0.0.1:9001/2018-06-01/runtime/invocation/1/error"
                        (trace (start deno counter up [invocation "1" VNull up]
                                      lambda_env)))
         = 1%nat).
Proof. vm_compute. repeat split. Qed.

Lemma missing_request_id_witness :
  (exists next, completion (getNext deno api_9001 anonymous lambda_env) = Done next)
  /\ invoked (trace (iteration deno api_9001 doubler anonymous lambda_env)) = [None]
  /\ posted "http://127.0.0.1:9001/2018-06-01/runtime/invocation/null/response"
            (trace (iteration deno api_9001 doubler anonymous lambda_env))
     = [Some ("{" ++ quoted "doubled" ++ ":2}")].
Proof.
  destruct (missing_request_id deno api_9001 doubler anonymous lambda_env _ "1"
              eq_refl eq_refl) as (Hsame & _ & _ & H).
  split; [rewrite Hsame; vm_compute; eexists; reflexivity|].
  destruct (H (Next.mk None None (Int 1700000003000) VUndefined VUndefined (event_x 1))
              ltac:(vm_compute; reflexivity))
    as (_ & _ & Hinv & _ & Hpost & _).
  split; [exact Hinv|].
  apply (Hpost (VObj [("doubled", VNum (Int 2))])); vm_compute; reflexivity.
Defined.

(** C7 as stated fails: the poll response carries no request-id header,
    the poll step returns all the same, the handler is invoked and its
    result is reported to the response endpoint of the id [null]. *)
Lemma anonymous_poll_counterexample :
  let run := start deno doubler up [anonymous] lambda_env in
  (exists next, completion (getNext deno api_9001 anonymous lambda_env) = Done next)
  /\ invoked (trace run) = [None]
  /\ posted "http://127.0.0.1:9001/2018-06-01/runtime/invocation/null/response"
            (trace run) = [Some ("{" ++ quoted "doubled" ++ ":2}")]
  /\ polls (trace run) = 2%nat.
Proof. vm_compute. repeat split. eexists. reflexivity. Qed.

Lemma failed_response_is_reported_witness :
  exists more,
    map is_get (trace (loop deno api_9001 doubler [dropped; sample_cycle] lambda_env))
    = ([true; false; false; false; true] ++ more)%list.
Proof.
  destruct (failed_response_is_reported deno api_9001 doubler dropped [sample_cycle]
              lambda_env lambda_env dropped_next _ dropped_poll
              (VObj [("doubled", VNum (Int 2))]) (VStr "ECONNRESET")
              (Some ("{" ++ quoted "doubled" ++ ":2}"))
              eq_refl eq_refl eq_refl)
    as (Htrace & _ & _ & Hnext & _).
  destruct (Hnext eq_refl) as [more Hmore].
  exists (map is_get more). rewrite Hmore, Htrace.
  rewrite !map_app. reflexivity.
Defined.

(** C10 as stated fails: the response report fails, the error report that
    follows fails too, and its failure ends the loop: the runtime does not
    poll for the next invocation. *)
Lemma both_reports_fail_counterexample :
  let run := start deno doubler up
               [invocation "1" (event_x 1) down; sample_cycle] lambda_env in
  completion run = Thrown (VStr "ECONNREFUSED")
  /\ length (posted "http://127.0.0.1:9001/2018-06-01/runtime/invocation/1/response"
                    (trace run)) = 1%nat
  /\ length (posted "http://127.0.0.1:9001/2018-06-01/runtime/invocation/1/error"
                    (trace run)) = 1%nat
  /\ polls (trace run) = 1%nat.
Proof. vm_compute. repeat split. Qed.

(** * Further properties of the runtime *)

(** ** The environment of a run *)

Lemma env_after_after {A} t (r : Run A) : env_after (after t r) = env_after r.
Proof. destruct r; reflexivity. Qed.

Lemma completion_after {A} t (r : Run A) : completion (after t r) = completion r.
Proof. destruct r; reflexivity. Qed.

(** What the poll step leaves in [process.env]. *)
Lemma getNext_env engine api c e :
  env_after (getNext engine api c e)
  = match poll c with
    | Resolved res =>
        match json res with
        | Resolved _ =>
            if truthy_opt (headers_get (headers res) "Lambda-Runtime-Trace-Id")
            then <["_X_AMZN_TRACE_ID" :=
                     nullish (headers_get (headers res) "Lambda-Runtime-Trace-Id") ""]> e
            else e
        | _ => e
        end
    | _ => e
    end.
Proof.
  unfold getNext, JSON_parse_M. unfold_runtime.
  repeat (settle; simpl); reflexivity.
Qed.

Lemma iteration_env engine api handler c e :
  env_after (iteration engine api handler c e)
  = env_after (getNext engine api c e).
Proof.
  destruct (getNext engine api c e) as [[next|x|code|] e1 T] eqn:Hnext.
  - turn_table Hnext; reflexivity.
  - unfold iteration, bind. rewrite Hnext. reflexivity.
  - unfold iteration, bind. rewrite Hnext. reflexivity.
  - unfold iteration, bind. rewrite Hnext. reflexivity.
Qed.

Lemma same_settings_refl e : same_settings e e.
Proof. intros key _. reflexivity. Qed.

Lemma same_settings_trans e1 e2 e3 :
  same_settings e1 e2 -> same_settings e2 e3 -> same_settings e1 e3.
Proof. intros H12 H23 key Hkey. rewrite (H23 key Hkey). apply H12, Hkey. Qed.

Lemma iteration_same_settings engine api handler c e :
  same_settings e (env_after (iteration engine api handler c e)).
Proof.
  rewrite iteration_env, getNext_env.
  destruct (poll c) as [res| |]; try apply same_settings_refl.
  destruct (json res); try apply same_settings_refl.
  destruct (truthy_opt _); try apply same_settings_refl.
  intros key Hkey. apply lookup_insert_ne. congruence.
Qed.

Lemma loop_same_settings engine api handler cycles :
  forall e, same_settings e (env_after (loop engine api handler cycles e)).
Proof.
  induction cycles as [|c rest IH]; intros e; simpl loop.
  - unfold getNext. unfold_runtime. simpl. apply same_settings_refl.
  - pose proof (iteration_same_settings engine api handler c e) as Hc.
    unfold bind.
    destruct (iteration engine api handler c e) as [[u|x|code|] e' t];
      simpl in *; try exact Hc.
    rewrite env_after_after. eapply same_settings_trans; [exact Hc|apply IH].
Qed.

(** ** Invariants of the trace *)

(** A property of the effects that every turn keeps is kept by the loop;
    [I] is what the turns may rely on about [process.env]. *)
Lemma loop_trace_forall (P : Effect -> Prop) (I : gmap string string -> Prop)
  engine api handler :
  (forall c e, I e ->
     Forall P (trace (iteration engine api handler c e))
     /\ I (env_after (iteration engine api handler c e))) ->
  forall cycles e, I e -> Forall P (trace (loop engine api handler cycles e)).
Proof.
  intros Hturn. induction cycles as [|c rest IH]; intros e He; simpl loop.
  - destruct (Hturn silent e He) as [Hsilent _].
    unfold iteration, getNext in Hsilent. unfold_runtime. simpl in Hsilent.
    unfold getNext. unfold_runtime. simpl. exact Hsilent.
  - destruct (Hturn c e He) as [Hc He'].
    unfold bind.
    destruct (iteration engine api handler c e) as [[u|x|code|] e' t];
      simpl in *; try exact Hc.
    rewrite trace_after. apply List.Forall_app. split; [exact Hc|].
    apply IH. exact He'.
Qed.

(** The effects of a turn: the poll, and after a poll step that returned,
    the call of the handler and the reports to the two endpoints of the
    request id. *)
Lemma iteration_effects engine api handler c e ev :
  In ev (trace (iteration engine api handler c e)) ->
  ev = Fetch_GET (next_url api) (poll c)
  \/ exists next e1 T,
       getNext engine api c e = mkRun (Done next) e1 T
       /\ ((exists res, ev = Invoke (Next.event next) (buildContext e1 next) res)
           \/ (exists body res,
                 ev = Fetch_POST (response_url api (Next.requestId next))
                                 "application/json" body res)
           \/ (exists body res,
                 ev = Fetch_POST (error_url api (Next.requestId next))
                                 "application/json" body res)).
Proof.
  destruct (getNext engine api c e) as [[next|x|code|] e1 T] eqn:Hnext.
  - turn_table Hnext;
      cbn [In]; (intros [<-|Hin]; [left; reflexivity|]);
      right; do 3 eexists; (split; [reflexivity|]);
      intuition (subst; eauto).
  - pose proof (getNext_trace engine api c e) as Ht. rewrite Hnext in Ht.
    unfold iteration, bind. rewrite Hnext. simpl in *. subst T.
    intros [<-|[]]. left. reflexivity.
  - pose proof (getNext_trace engine api c e) as Ht. rewrite Hnext in Ht.
    unfold iteration, bind. rewrite Hnext. simpl in *. subst T.
    intros [<-|[]]. left. reflexivity.
  - pose proof (getNext_trace engine api c e) as Ht. rewrite Hnext in Ht.
    unfold iteration, bind. rewrite Hnext. simpl in *. subst T.
    intros [<-|[]]. left. reflexivity.
Qed.


Lemma start_trace_forall (P : Effect -> Prop) engine handler init cycles e :
  P (Console_error "Not running in Lambda (AWS_LAMBDA_RUNTIME_API missing).") ->
  P (Process_exit 1) ->
  (forall c e', same_settings e e' ->
     Forall P (trace (iteration engine (RUNTIME_API e) handler c e'))) ->
  Forall P (trace (start engine handler init cycles e)).
Proof.
  intros Herr Hexit Hturn.
  destruct (truthy_opt (RUNTIME_API e)) eqn:Hapi.
  - rewrite start_loop by exact Hapi.
    apply (loop_trace_forall P (same_settings e)).
    + intros c e' He'. split; [apply Hturn, He'|].
      eapply same_settings_trans; [exact He'|apply iteration_same_settings].
    + apply same_settings_refl.
  - unfold start, reportInitError, console_error, process_exit. unfold_runtime.
    rewrite Hapi. simpl. repeat constructor; assumption.
Qed.



Lemma getNext_never_exits engine api c e code :
  completion (getNext engine api c e) <> Exited code.
Proof.
  unfold getNext, JSON_parse_M. unfold_runtime.
  repeat (settle; simpl); discriminate.
Qed.

Lemma iteration_never_exits engine api handler c e code :
  completion (iteration engine api handler c e) <> Exited code.
Proof.
  destruct (getNext engine api c e) as [[next|x|code'|] e1 T] eqn:Hnext.
  - turn_table Hnext; discriminate.
  - unfold iteration, bind. rewrite Hnext. discriminate.
  - destruct (getNext_never_exits engine api c e code'). rewrite Hnext. reflexivity.
  - unfold iteration, bind. rewrite Hnext. discriminate.
Qed.

Lemma loop_never_exits engine api handler cycles :
  forall e code, completion (loop engine api handler cycles e) <> Exited code.
Proof.
  induction cycles as [|c rest IH]; intros e code; simpl loop.
  - unfold getNext. unfold_runtime. simpl. discriminate.
  - pose proof (iteration_never_exits engine api handler c e code) as Hc.
    unfold bind.
    destruct (iteration engine api handler c e) as [[u|x|code'|] e' t];
      simpl in *; try discriminate;
      try (intros Heq; injection Heq as ->; apply Hc; reflexivity).
    rewrite completion_after. apply IH.
Qed.

(** ** Counting *)



Lemma getNext_not_done engine api handler c e :
  (forall next, completion (getNext engine api c e) <> Done next) ->
  trace (iteration engine api handler c e) = [Fetch_GET (next_url api) (poll c)]
  /\ forall u, completion (iteration engine api handler c e) <> Done u.
Proof.
  intros Hnot. pose proof (getNext_trace engine api c e) as Ht.
  unfold iteration, bind.
  destruct (getNext engine api c e) as [[next|x|code|] e1 T]; simpl in *;
    subst T; try (split; [reflexivity|discriminate]).
  destruct (Hnot next). reflexivity.
Qed.




(** What the poll step puts in the two JSON fields of its result. *)
Lemma getNext_contexts engine api c e next e1 T res :
  getNext engine api c e = mkRun (Done next) e1 T ->
  poll c = Resolved res ->
  let client := headers_get (headers res) "Lambda-Runtime-Client-Context" in
  let cognito := headers_get (headers res) "Lambda-Runtime-Cognito-Identity" in
  (if truthy_opt client
   then JSON_parse (nullish client "") = Some (Next.clientContext next)
   else Next.clientContext next = VUndefined)
  /\ (if truthy_opt cognito
      then JSON_parse (nullish cognito "") = Some (Next.identity next)
      else Next.identity next = VUndefined).
Proof.
  unfold getNext, JSON_parse_M. unfold_runtime.
  intros H Hpoll. rewrite Hpoll in H. simpl in H. revert H.
  repeat (settle; simpl; try discriminate);
    intros H; injection H as <- <- <-; simpl; split; reflexivity.
Qed.

Lemma truthy_opt_some s : s <> "" -> truthy_opt (Some s) = true.
Proof. destruct s; [congruence|reflexivity]. Qed.

Lemma stringify_nonempty v text :
  json_value v = true -> JSON_stringify v = Returns (Some text) -> text <> "".
Proof.
  intros Hj Hs. unfold JSON_stringify in Hs.
  rewrite stringify_chars_ser in Hs by exact Hj.
  injection Hs as <-.
  destruct (ser_start v Hj) as (ch & t & -> & _). discriminate.
Qed.

Lemma addressed_loop engine api handler cycles :
  forall e latest,
    addressed api latest (trace (loop engine api handler cycles e)) = true.
Proof.
  induction cycles as [|c rest IH]; intros e latest; simpl loop.
  - unfold getNext. unfold_runtime. reflexivity.
  - unfold bind at 1.
    destruct (getNext engine api c e) as [[next|x|code|] e1 T] eqn:Hnext.
    + destruct (getNext_done _ _ _ _ _ _ _ Hnext) as (res & Hres & _ & Hrid & _).
      turn_table Hnext; rewrite Hres; rewrite ?trace_after;
        cbn [trace app addressed polled_id]; rewrite <- ?Hrid;
        rewrite ?String.eqb_refl, ?orb_true_r; cbn [orb andb];
        try reflexivity; apply IH.
    + pose proof (getNext_trace engine api c e) as Ht. rewrite Hnext in Ht.
      unfold iteration, bind. rewrite Hnext. simpl in *. subst T. reflexivity.
    + pose proof (getNext_trace engine api c e) as Ht. rewrite Hnext in Ht.
      unfold iteration, bind. rewrite Hnext. simpl in *. subst T. reflexivity.
    + pose proof (getNext_trace engine api c e) as Ht. rewrite Hnext in Ht.
      unfold iteration, bind. rewrite Hnext. simpl in *. subst T. reflexivity.
Qed.



Lemma loop_poll_failure engine api handler c rest e x :
  completion (getNext engine api c e) = Thrown x ->
  completion (loop engine api handler (c :: rest) e) = Thrown x
  /\ trace (loop engine api handler (c :: rest) e)
     = [Fetch_GET (next_url api) (poll c)].
Proof.
  intros Hthrown.
  pose proof (getNext_trace engine api c e) as Ht.
  simpl loop. unfold bind at 1. unfold iteration, bind.
  destruct (getNext engine api c e) as [k e1 T].
  simpl in *. subst k T. split; reflexivity.
Qed.

Lemma reportInitError_env engine api net err e :
  env_after (reportInitError engine api net err e) = e.
Proof.
  unfold reportInitError, post. unfold_runtime.
  destruct (negb (truthy_opt api)); [reflexivity|].
  destruct (toErrorPayload engine err); cbn beta iota;
    [rewrite post_body_payload; cbn beta iota|reflexivity].
  destruct (net (init_error_url api)); reflexivity.
Qed.

(** ** The properties *)

(** X1: the code of the runtime writes [process.env] in one slot only,
    the trace id: every other variable has at the end of the run the value
    it had at the start. *)
Theorem env_frame engine (handler : Handler) (init : Delivery)
  (cycles : list Cycle) (e : gmap string string) (key : string) :
  key <> "_X_AMZN_TRACE_ID" ->
  env_after (start engine handler init cycles e) !! key = e !! key.
Proof.
  intros Hkey. unfold start. unfold bind at 1. unfold get_env.
  rewrite env_after_after.
  destruct (negb (truthy_opt (RUNTIME_API e))).
  - match goal with
    | |- env_after (bind (reportInitError ?en ?api ?net ?err) _ _) !! _ = _ =>
        pose proof (reportInitError_env en api net err e) as Henv;
        unfold bind at 1;
        destruct (reportInitError en api net err e) as [[u|x|code|] e' t]
    end; simpl in Henv; subst e'; reflexivity.
  - apply loop_same_settings. exact Hkey.
Qed.


(** X3: with the endpoint configured, a run never writes to standard error
    and never exits the process: it ends only suspended on a call that
    does not settle, or with a value thrown out of [start]. *)
Theorem runs_until_stopped engine (handler : Handler) (init : Delivery)
  (cycles : list Cycle) (e : gmap string string) :
  truthy_opt (RUNTIME_API e) = true ->
  let run := start engine handler init cycles e in
  Forall stays_alive (trace run)
  /\ (completion run = Blocked \/ exists x, completion run = Thrown x).
Proof.
  intros Hapi run. subst run. rewrite start_loop by exact Hapi. split.
  - apply (loop_trace_forall stays_alive (fun _ => True)); [|exact I].
    intros c e' _. split; [|exact I].
    apply List.Forall_forall. intros ev Hin.
    apply iteration_effects in Hin
      as [->|(next & e1 & T & Hnext & [[res ->]|[(b & res & ->)|(b & res & ->)]])];
      exact I.
  - pose proof (loop_never_exits engine (RUNTIME_API e) handler cycles e) as H.
    destruct (completion (loop engine (RUNTIME_API e) handler cycles e))
      as [[]|x|code|]; eauto.
    destruct (H code). reflexivity.
Qed.


(** X5: every POST of a run carries the content type [application/json],
    whatever its body. *)
Theorem posts_announce_json engine (handler : Handler) (init : Delivery)
  (cycles : list Cycle) (e : gmap string string) :
  Forall json_typed (trace (start engine handler init cycles e)).
Proof.
  apply start_trace_forall; try exact I.
  intros c e' _. apply List.Forall_forall. intros ev Hin.
  apply iteration_effects in Hin
    as [->|(next & e1 & T & Hnext & [[res ->]|[(b & res & ->)|(b & res & ->)]])];
    try exact I; reflexivity.
Qed.

(** X6: the poll step publishes the trace id of the response in
    [process.env] once the body has been read: a non-empty trace header
    overwrites the slot [_X_AMZN_TRACE_ID]; without the header, or with an
    empty one, [process.env] is left as it was (an earlier trace id stays);
    and when the body does not parse nothing is published. *)
Theorem trace_id_published engine api (c : Cycle) (e : gmap string string)
  (res : Response) :
  poll c = Resolved res ->
  let polled := getNext engine api c e in
  let header := headers_get (headers res) "Lambda-Runtime-Trace-Id" in
  (forall event id,
      json res = Resolved event -> header = Some id -> id <> "" ->
      env_after polled = <["_X_AMZN_TRACE_ID" := id]> e
      /\ env_after polled !! "_X_AMZN_TRACE_ID" = Some id)
  /\ (header = None \/ header = Some "" -> env_after polled = e)
  /\ (forall x, json res = Rejected x -> env_after polled = e).
Proof.
  intros Hpoll polled header. subst polled header.
  rewrite getNext_env, Hpoll. split; [|split].
  - intros event id -> -> Hid. destruct id; [congruence|]. simpl.
    split; [reflexivity|apply lookup_insert_eq].
  - intros [-> | ->]; destruct (json res); reflexivity.
  - intros x ->. reflexivity.
Qed.

(** X7: a failure of the poll step is fatal.  When [getNext] throws (the
    poll request fails, the body does not parse, or a JSON header does not
    parse), the value escapes [start]: the poll is not retried, the handler
    is not invoked, nothing is reported and the invocations that the host
    still holds are never polled. *)
Theorem poll_step_failure_is_fatal engine (handler : Handler) (init : Delivery)
  (c : Cycle) (rest : list Cycle) (e : gmap string string) (x : JsValue) :
  truthy_opt (RUNTIME_API e) = true ->
  completion (getNext engine (RUNTIME_API e) c e) = Thrown x ->
  let run := start engine handler init (c :: rest) e in
  completion run = Thrown x
  /\ trace run = [Fetch_GET (next_url (RUNTIME_API e)) (poll c)].
Proof.
  intros Hapi Hthrown run. subst run. rewrite start_loop by exact Hapi.
  apply loop_poll_failure. exact Hthrown.
Qed.

(** X8: when the handler throws, the turn sends nothing to the response
    endpoint.  When a payload can be made of the thrown value, exactly one
    POST goes to the error endpoint of the request id; its body is JSON
    text that reads back as the payload [{errorType, errorMessage,
    stackTrace}] of the thrown value, and the turn ends as that POST does.
    When [toErrorPayload] throws (the thrown value cannot be converted to
    a string), nothing is sent at all and that failure ends the loop. *)
Theorem handler_failure_reported engine api (handler : Handler) (c : Cycle)
  (rest : list Cycle) (e e1 : gmap string string) (next : Next.t)
  (T : list Effect) (err : JsValue) :
  getNext engine api c e = mkRun (Done next) e1 T ->
  handler (Next.event next) (buildContext e1 next) = Rejected err ->
  let rid := Next.requestId next in
  let it := iteration engine api handler c e in
  posted (response_url api rid) (trace it) = []
  /\ match toErrorPayload engine err with
     | Returns p =>
         (exists text,
             posted (error_url api rid) (trace it) = [Some text]
             /\ JSON_parse text = Some (payload_value p))
         /\ completion it = completion_of (delivery c (error_url api rid))
     | Throws z =>
         (forall url, posted url (trace it) = [])
         /\ loop engine api handler (c :: rest) e
            = mkRun (Thrown z) e1
                    (T ++ [Invoke (Next.event next) (buildContext e1 next)
                                  (Rejected err)])
     end.
Proof.
  intros Hnext Herr rid it. subst it.
  pose proof (turn_run _ _ handler _ _ _ _ _ Hnext) as Hrun. cbn zeta in Hrun.
  rewrite Herr, respondError_run in Hrun. fold rid in Hrun.
  pose proof (turn_opens_with_poll _ _ _ _ _ _ _ Hnext) as HT.
  destruct (toErrorPayload engine err) as [p|z]; cbn [after] in Hrun.
  - rewrite Hrun. cbn [trace completion]. rewrite HT.
    split; [|split; [exists (payload_text p); split|reflexivity]].
    + cbn [posted app]. rewrite (proj2 (response_eqb_error api rid rid)). reflexivity.
    + cbn [posted app]. rewrite String.eqb_refl. reflexivity.
    + apply payload_text_parses.
  - rewrite app_nil_r in Hrun. rewrite Hrun. cbn [trace]. rewrite HT.
    split; [reflexivity|]. split; [reflexivity|].
    rewrite <- HT. apply loop_stops. exact Hrun.
Qed.

(** X9: a turn invokes the handler exactly once when the poll step returns,
    with the parsed body of the poll response as the event and the request
    id of the response in the context, and not at all when the poll step
    does not return. *)
Theorem handler_invoked_once engine api (handler : Handler) (c : Cycle)
  (e : gmap string string) :
  let polled := getNext engine api c e in
  let it := iteration engine api handler c e in
  (forall next,
      completion polled = Done next ->
      handled (trace it) = [Next.event next]
      /\ invoked (trace it) = [Next.requestId next]
      /\ exists res, poll c = Resolved res /\ json res = Resolved (Next.event next))
  /\ ((forall next, completion polled <> Done next) -> handled (trace it) = []).
Proof.
  intros polled it. subst polled it. split.
  - intros next Hdone.
    destruct (getNext engine api c e) as [k e1 T] eqn:Hnext.
    simpl in Hdone. subst k.
    destruct (getNext_done _ _ _ _ _ _ _ Hnext) as (res & Hres & Hjson & _).
    split; [|split; [|eauto]]; turn_table Hnext; reflexivity.
  - intros Hnot.
    destruct (getNext_not_done engine api handler c e Hnot) as [-> _].
    reflexivity.
Qed.


(** X11: every POST of a run is addressed to the invocation in hand: its
    URL is the response or the error endpoint of the request id handed out
    by the latest poll before it, never that of an earlier invocation, and
    no POST is sent before a poll has been answered. *)
Theorem reports_follow_latest_poll engine (handler : Handler) (init : Delivery)
  (cycles : list Cycle) (e : gmap string string) :
  addressed (RUNTIME_API e) None (trace (start engine handler init cycles e)) = true.
Proof.
  destruct (truthy_opt (RUNTIME_API e)) eqn:Hapi.
  - rewrite start_loop by exact Hapi. apply addressed_loop.
  - unfold start, reportInitError, console_error, process_exit. unfold_runtime.
    rewrite Hapi. reflexivity.
Qed.

(** X12: a result that cannot be serialized is reported as a failure of
    the invocation.  When the handler completes with a value for which
    [JSON.stringify] throws, [post] throws before any request is issued:
    nothing is sent to the response endpoint, the thrown value is caught,
    and its error payload is the one POST of the turn, to the error
    endpoint of the request id; the loop goes on to the next poll when that
    report is delivered. *)
Theorem unserializable_result_reported engine api (handler : Handler) (c : Cycle)
  (rest : list Cycle) (e e1 : gmap string string) (next : Next.t)
  (T : list Effect) (v z : JsValue) (p : ErrorPayload) :
  getNext engine api c e = mkRun (Done next) e1 T ->
  handler (Next.event next) (buildContext e1 next) = Resolved v ->
  JSON_stringify v = Throws z ->
  toErrorPayload engine z = Returns p ->
  let rid := Next.requestId next in
  let it := iteration engine api handler c e in
  let report :=
    Fetch_POST (error_url api rid) "application/json" (Some (payload_text p))
               (delivery c (error_url api rid)) in
  it = mkRun (completion_of (delivery c (error_url api rid))) e1
             (T ++ [Invoke (Next.event next) (buildContext e1 next) (Resolved v);
                    report])
  /\ posted (response_url api rid) (trace it) = []
  /\ JSON_parse (payload_text p) = Some (payload_value p)
  /\ (delivery c (error_url api rid) = Resolved tt ->
      exists more,
        trace (loop engine api handler (c :: rest) e)
        = (trace it ++ Fetch_GET (next_url api) (next_poll rest) :: more)%list).
Proof.
  intros Hnext Hv Hz Hp rid it report.
  assert (Hb : post_body v = Throws z).
  { destruct v; try exact Hz. discriminate Hz. }
  assert (Hit : it = mkRun (completion_of (delivery c (error_url api rid))) e1
                  (T ++ [Invoke (Next.event next) (buildContext e1 next) (Resolved v);
                         report])).
  { subst it. rewrite (turn_run _ _ _ _ _ _ _ _ Hnext). cbn zeta.
    rewrite Hv, Hb, respondError_run, Hp. cbn [after].
    rewrite <- app_assoc. reflexivity. }
  split; [exact Hit|]. rewrite Hit. cbn [trace].
  split; [|split; [apply payload_text_parses|]].
  - rewrite (turn_opens_with_poll _ _ _ _ _ _ _ Hnext). subst report.
    cbn [posted app]. rewrite (proj2 (response_eqb_error api rid rid)). reflexivity.
  - intros Hup. eapply loop_continues. fold it. rewrite Hit, Hup. reflexivity.
Qed.


(** X14: with an endpoint address, [reportInitError] sends exactly one
    POST to the init-error endpoint, whose body is JSON text that reads
    back as the error payload; it leaves [process.env] alone and returns
    normally whether the POST is delivered or fails.  (When no payload can
    be made of the value it is given, it sends nothing and returns
    normally all the same.) *)
Theorem reportInitError_reports engine (api : option string) (net : Delivery)
  (err : JsValue) (e : gmap string string) :
  truthy_opt api = true ->
  let r := reportInitError engine api net err e in
  match toErrorPayload engine err with
  | Returns p =>
      (exists text,
          trace r = [Fetch_POST (init_error_url api) "application/json" (Some text)
                                (net (init_error_url api))]
          /\ JSON_parse text = Some (payload_value p))
      /\ (settled (net (init_error_url api)) = true -> completion r = Done tt)
  | Throws _ => trace r = [] /\ completion r = Done tt
  end
  /\ env_after r = e.
Proof.
  intros Hapi r. subst r.
  unfold reportInitError, post. unfold_runtime. rewrite Hapi. cbn [negb].
  destruct (toErrorPayload engine err) as [p|z]; cbn beta iota;
    [rewrite post_body_payload; cbn beta iota|split; [split|]; reflexivity].
  split; [split; [exists (payload_text p); split; [|apply payload_text_parses]|]|].
  - destruct (net (init_error_url api)); reflexivity.
  - destruct (net (init_error_url api)) as [[]| |]; simpl;
      [reflexivity|reflexivity|discriminate].
  - destruct (net (init_error_url api)); reflexivity.
Qed.

(** X15: when the poll response carries the deadline header with the
    decimal digits of a safe integer, that integer is the deadline of the
    context, whatever the clock shows in the poll step, and the remaining
    time at a reading [t] is the distance to it, or zero once it is
    passed. *)
Theorem explicit_deadline engine api (c : Cycle) (e e1 : gmap string string)
  (res : Response) (next : Next.t) (T : list Effect) (deadline : Z) :
  poll c = Resolved res ->
  safe_integer deadline = true ->
  headers_get (headers res) "Lambda-Runtime-Deadline-Ms"
    = Some (number_to_string (Int deadline)) ->
  getNext engine api c e = mkRun (Done next) e1 T ->
  let ctx := buildContext e1 next in
  deadlineMs ctx = Int deadline
  /\ forall t, getRemainingTimeInMillis ctx t = Int (Z.max 0 (deadline - t)).
Proof.
  intros Hpoll _ Hheader Hnext.
  destruct (getNext_done _ _ _ _ _ _ _ Hnext) as (res' & Hp & _ & _ & _ & Hd & _).
  rewrite Hpoll in Hp. injection Hp as <-.
  rewrite Hheader in Hd. simpl in Hd. rewrite Number_number_to_string in Hd.
  simpl. rewrite Hd. split; reflexivity.
Qed.

(** X16: the fields of the context that belong to one invocation come
    from the headers of its poll response: the request id and the invoked
    function ARN are the headers as they are ([null] or [undefined] when
    missing); the client context and the identity are [undefined] when
    their header is missing or empty, and the value [v] itself when the
    host sends the text that [JSON.stringify] writes for a JSON value
    [v]. *)
Theorem context_from_headers engine api (c : Cycle) (e e1 : gmap string string)
  (res : Response) (next : Next.t) (T : list Effect) :
  poll c = Resolved res ->
  getNext engine api c e = mkRun (Done next) e1 T ->
  let ctx := buildContext e1 next in
  let client := headers_get (headers res) "Lambda-Runtime-Client-Context" in
  let cognito := headers_get (headers res) "Lambda-Runtime-Cognito-Identity" in
  awsRequestId ctx = headers_get (headers res) "Lambda-Runtime-Aws-Request-Id"
  /\ invokedFunctionArn ctx
     = headers_get (headers res) "Lambda-Runtime-Invoked-Function-Arn"
  /\ (client = None \/ client = Some "" -> clientContext ctx = VUndefined)
  /\ (forall v text, json_value v = true -> JSON_stringify v = Returns (Some text) ->
                     client = Some text -> clientContext ctx = v)
  /\ (cognito = None \/ cognito = Some "" -> identity ctx = VUndefined)
  /\ (forall v text, json_value v = true -> JSON_stringify v = Returns (Some text) ->
                     cognito = Some text -> identity ctx = v).
Proof.
  intros Hpoll Hnext ctx client cognito.
  destruct (getNext_contexts _ _ _ _ _ _ _ _ Hnext Hpoll) as [Hc Hi].
  destruct (getNext_done _ _ _ _ _ _ _ Hnext) as (res' & Hres & _ & Hrid & Harn & _).
  rewrite Hpoll in Hres. injection Hres as <-.
  fold client in Hc. fold cognito in Hi. subst ctx. simpl.
  assert (Hread : forall header field,
             (if truthy_opt header
              then JSON_parse (nullish header "") = Some field
              else field = VUndefined) ->
             (header = None \/ header = Some "" -> field = VUndefined)
             /\ (forall v text, json_value v = true ->
                                JSON_stringify v = Returns (Some text) ->
                                header = Some text -> field = v)).
  { intros header field H. split.
    - intros [-> | ->]; exact H.
    - intros v text Hj Hs ->.
      rewrite (truthy_opt_some text (stringify_nonempty v text Hj Hs)) in H.
      simpl in H. destruct (JSON_roundtrip v Hj) as (text' & Hs' & Hp).
      congruence. }
  destruct (Hread _ _ Hc) as (H1 & H2).
  destruct (Hread _ _ Hi) as (H3 & H4).
  repeat split; assumption.
Qed.

(** X17: when the handler completes with a value, the POST to the response
    endpoint is sent and it is delivered, nothing is sent to the error
    endpoint, the turn completes, and the loop goes on to the next poll. *)
Theorem delivered_result_ends_turn engine api (handler : Handler) (c : Cycle)
  (rest : list Cycle) (e e1 : gmap string string) (next : Next.t)
  (T : list Effect) (v : JsValue) (body : option string) :
  getNext engine api c e = mkRun (Done next) e1 T ->
  handler (Next.event next) (buildContext e1 next) = Resolved v ->
  post_body v = Returns body ->
  delivery c (response_url api (Next.requestId next)) = Resolved tt ->
  let it := iteration engine api handler c e in
  completion it = Done tt
  /\ posted (error_url api (Next.requestId next)) (trace it) = []
  /\ exists more,
       trace (loop engine api handler (c :: rest) e)
       = (trace it ++ Fetch_GET (next_url api) (next_poll rest) :: more)%list.
Proof.
  intros Hnext Hv Hb Hup it.
  assert (Hit : it = mkRun (Done tt) e1
                  (T ++ [Invoke (Next.event next) (buildContext e1 next) (Resolved v);
                         Fetch_POST (response_url api (Next.requestId next))
                           "application/json" body (Resolved tt)])).
  { subst it. rewrite (turn_run _ _ _ _ _ _ _ _ Hnext). cbn zeta.
    rewrite Hv, Hb, Hup. reflexivity. }
  split; [rewrite Hit; reflexivity|]. split.
  - rewrite Hit, (turn_opens_with_poll _ _ _ _ _ _ _ Hnext).
    cbn [trace posted app].
    rewrite (proj1 (response_eqb_error api _ _)). reflexivity.
  - rewrite Hit. cbn [trace]. eapply loop_continues. exact Hit.
Qed.

(** X18: the deadline is not enforced: when the handler never settles, the
    turn stays suspended on it whatever the deadline, nothing is reported
    and no further poll is issued. *)
Theorem pending_handler_blocks_loop engine api (handler : Handler) (c : Cycle)
  (rest : list Cycle) (e e1 : gmap string string) (next : Next.t)
  (T : list Effect) :
  getNext engine api c e = mkRun (Done next) e1 T ->
  handler (Next.event next) (buildContext e1 next) = Pending ->
  let run := loop engine api handler (c :: rest) e in
  completion run = Blocked
  /\ trace run = (T ++ [Invoke (Next.event next) (buildContext e1 next) Pending])%list
  /\ polls (trace run) = 1%nat
  /\ (forall url, posted url (trace run) = []).
Proof.
  intros Hnext Hpending run.
  assert (Hrun : run = mkRun Blocked e1
                   (T ++ [Invoke (Next.event next) (buildContext e1 next) Pending])).
  { subst run. simpl loop. unfold bind.
    rewrite (turn_run _ _ _ _ _ _ _ _ Hnext). cbn zeta.
    rewrite Hpending. reflexivity. }
  rewrite Hrun, (turn_opens_with_poll _ _ _ _ _ _ _ Hnext).
  repeat split; reflexivity.
Qed.

(** ** Sample runs of the further properties *)

Lemma full_cycle_poll :
  getNext deno api_9001 full_cycle lambda_env
  = mkRun (Done full_next) traced_env
          [Fetch_GET (next_url api_9001) (poll full_cycle)].
Proof. vm_compute. reflexivity. Qed.

Lemma env_frame_witness :
  env_after (start deno doubler up [full_cycle] lambda_env) !! "AWS_LAMBDA_RUNTIME_API"
  = Some "127.0.0.1:9001".
Proof.
  rewrite (env_frame deno doubler up [full_cycle] lambda_env
             "AWS_LAMBDA_RUNTIME_API" ltac:(discriminate)).
  reflexivity.
Defined.

Lemma runs_until_stopped_witness :
  completion (start deno doubler up two_invocations lambda_env) = Blocked
  \/ exists x, completion (start deno doubler up two_invocations lambda_env) = Thrown x.
Proof.
  exact (proj2 (runs_until_stopped deno doubler up two_invocations lambda_env eq_refl)).
Defined.

Lemma trace_id_published_witness :
  env_after (getNext deno api_9001 full_cycle lambda_env) !! "_X_AMZN_TRACE_ID"
  = Some "Root=1-5759e988".
Proof.
  destruct (trace_id_published deno api_9001 full_cycle lambda_env full_response
              eq_refl) as [H _].
  apply (H (event_x 3) "Root=1-5759e988"); [reflexivity|reflexivity|discriminate].
Defined.

Lemma poll_step_failure_is_fatal_witness :
  completion (start deno doubler up [unreachable; sample_cycle] lambda_env)
  = Thrown (VStr "ECONNREFUSED")
  /\ trace (start deno doubler up [unreachable; sample_cycle] lambda_env)
     = [Fetch_GET (next_url api_9001) (Rejected (VStr "ECONNREFUSED"))].
Proof.
  exact (poll_step_failure_is_fatal deno doubler up unreachable [sample_cycle]
           lambda_env (VStr "ECONNREFUSED") eq_refl eq_refl).
Defined.

Lemma handler_failure_reported_witness :
  posted (response_url api_9001 (Some "8476a536"))
         (trace (iteration deno api_9001 thrower sample_cycle lambda_env)) = []
  /\ completion (iteration deno api_9001 thrower sample_cycle lambda_env) = Done tt.
Proof.
  destruct (handler_failure_reported deno api_9001 thrower sample_cycle []
              lambda_env lambda_env sample_next [sample_poll]
              (VErr (mkError "TypeError" "boom" None)) sample_cycle_poll eq_refl)
    as (H1 & _ & H3).
  split; [exact H1|exact H3].
Defined.

(** The handler rethrows the event [{toString: null}]: no payload can be
    made of it, nothing is reported, and the [TypeError] of the conversion
    ends the run after the one poll. *)
Example unconvertible_failure_run :
  let event := VObj [("toString", VNull)] in
  let run := start deno rethrow up [invocation "1" event up; sample_cycle] lambda_env in
  completion run = Thrown (TypeError deno event)
  /\ requests (trace run)
     = [GET "http://127.0.0.1:9001/2018-06-01/runtime/invocation/next"].
Proof. vm_compute. split; reflexivity. Qed.

Lemma handler_invoked_once_witness :
  handled (trace (iteration deno api_9001 doubler sample_cycle lambda_env))
  = [event_x 21].
Proof.
  destruct (handler_invoked_once deno api_9001 doubler sample_cycle lambda_env)
    as [H _].
  apply (H sample_next). rewrite sample_cycle_poll. reflexivity.
Defined.

Lemma reportInitError_reports_witness :
  completion (reportInitError deno api_9001 down (VStr "boom") lambda_env) = Done tt
  /\ env_after (reportInitError deno api_9001 down (VStr "boom") lambda_env)
     = lambda_env.
Proof.
  destruct (reportInitError_reports deno api_9001 down (VStr "boom") lambda_env
              eq_refl) as ((_ & H2) & H3).
  split; [apply H2; reflexivity|exact H3].
Defined.

Lemma counter_poll :
  getNext deno api_9001 (invocation "1" VNull up) lambda_env
  = mkRun (Done refused_next) lambda_env
          [Fetch_GET (next_url api_9001) (poll (invocation "1" VNull up))].
Proof. vm_compute. reflexivity. Qed.

Lemma unserializable_result_reported_witness :
  completion (iteration deno api_9001 counter (invocation "1" VNull up) lambda_env)
  = Done tt
  /\ posted (response_url api_9001 (Some "1"))
            (trace (iteration deno api_9001 counter (invocation "1" VNull up)
                              lambda_env)) = [].
Proof.
  destruct (unserializable_result_reported deno api_9001 counter
              (invocation "1" VNull up) [] lambda_env lambda_env refused_next _
              one_n
              (VErr (mkError "TypeError" "Do not know how to serialize a BigInt" None))
              (mkErrorPayload "TypeError" "Do not know how to serialize a BigInt" [""])
              counter_poll eq_refl eq_refl eq_refl)
    as (H1 & H2 & _).
  split; [rewrite H1; reflexivity|exact H2].
Defined.

Lemma explicit_deadline_witness :
  deadlineMs (buildContext traced_env full_next) = Int 1700000005000
  /\ getRemainingTimeInMillis (buildContext traced_env full_next) 1700000001000
     = Int 4000.
Proof.
  destruct (explicit_deadline deno api_9001 full_cycle lambda_env traced_env
              full_response full_next _ 1700000005000
              eq_refl eq_refl eq_refl full_cycle_poll) as [H1 H2].
  split; [exact H1|apply H2].
Defined.

Lemma context_from_headers_witness :
  awsRequestId (buildContext traced_env full_next) = Some "7"
  /\ clientContext (buildContext traced_env full_next) = VObj [("app", VStr "demo")]
  /\ identity (buildContext traced_env full_next) = VNull.
Proof.
  destruct (context_from_headers deno api_9001 full_cycle lambda_env traced_env
              full_response full_next _ eq_refl full_cycle_poll)
    as (H1 & _ & _ & H3 & _ & H5).
  split; [exact H1|split].
  - apply (H3 (VObj [("app", VStr "demo")])
              ("{" ++ quoted "app" ++ ":" ++ quoted "demo" ++ "}"));
      reflexivity.
  - apply (H5 VNull "null"); reflexivity.
Defined.

(** A client-context header that is not JSON: the [SyntaxError] of
    [JSON.parse] ends the run after the one poll. *)
Example bad_client_context_run :
  completion (start deno doubler up [bad_client_context; sample_cycle] lambda_env)
  = Thrown (SyntaxError deno "{oops")
  /\ requests (trace (start deno doubler up [bad_client_context; sample_cycle]
                            lambda_env))
     = [GET "http://127.0.0.1:9001/2018-06-01/runtime/invocation/next"].
Proof. vm_compute. split; reflexivity. Qed.

Lemma delivered_result_ends_turn_witness :
  completion (iteration deno api_9001 doubler sample_cycle lambda_env) = Done tt
  /\ posted (error_url api_9001 (Some "8476a536"))
            (trace (iteration deno api_9001 doubler sample_cycle lambda_env)) = [].
Proof.
  destruct (delivered_result_ends_turn deno api_9001 doubler sample_cycle []
              lambda_env lambda_env sample_next [sample_poll]
              (VObj [("doubled", VNum (Int 42))])
              (Some ("{" ++ quoted "doubled" ++ ":42}"))
              sample_cycle_poll eq_refl eq_refl eq_refl)
    as (H1 & H2 & _).
  split; [exact H1|exact H2].
Defined.

Lemma pending_handler_blocks_loop_witness :
  completion (loop deno api_9001 stuck [sample_cycle; sample_cycle] lambda_env)
  = Blocked
  /\ polls (trace (loop deno api_9001 stuck [sample_cycle; sample_cycle] lambda_env))
     = 1%nat.
Proof.
  destruct (pending_handler_blocks_loop deno api_9001 stuck sample_cycle
              [sample_cycle] lambda_env lambda_env sample_next [sample_poll]
              sample_cycle_poll eq_refl)
    as (H1 & _ & H3 & _).
  split; [exact H1|exact H3].
Defined.
